(** * usdUtils/pipeline.cpp: instance-aware path forwarding and uninstancing

    A shallow embedding of [UsdUtilsGetPrimAtPathWithForwarding] and
    [UsdUtilsUninstancePrimAtPath].  The two functions are translated
    statement by statement into a small state monad over the stage; the
    scene-graph accessor they call (SdfPath, UsdStage, UsdPrim, TF_VERIFY)
    lives in other libraries and is modelled from its specified interface. *)

From stdpp Require Import base option list strings gmap.
From Stdlib Require Import Lia.

Open Scope string_scope.
Open Scope list_scope.
Open Scope stdpp_scope.

(* ===================================================================== *)
(** ** Path model *)
(* ===================================================================== *)

(** Name components of a path, leaf first: [/A/x] is ["x"; "A"].  This is
    the parent-pointer layout of a path node: the parent of a path is the
    tail of its components. *)
Abbreviation names := (list string).

(** Modelled from the spec: SdfPath is declared in pxr/usd/sdf/path.h.  A
    path is the distinguished empty path, or a root marker followed by an
    ordered sequence of name components.  Relative paths only occur as the
    suffix that [ReplacePrefix] computes, and are kept as bare [names]. *)
Inductive SdfPath : Type :=
| EmptyPath
| AbsPath (comps : names).

#[global] Instance SdfPath_eq_dec : EqDecision SdfPath.
Proof. solve_decision. Defined.

Definition AbsoluteRootPath : SdfPath := AbsPath [].

(** The relative path ".": replacing a prefix by it leaves the suffix. *)
Definition ReflexiveRelativePath : names := [].

(** Modelled from the spec: the parent of [/a/.../y/z] is [/a/.../y]; the
    root and the empty path have the empty path as parent. *)
Definition GetParentPath (p : SdfPath) : SdfPath :=
  match p with
  | AbsPath (_ :: rest) => AbsPath rest
  | AbsPath [] => EmptyPath
  | EmptyPath => EmptyPath
  end.

(** Modelled from the spec: a prim path names a prim below the root;
    neither the root nor the empty path is classified as one. *)
Definition IsPrimPath (p : SdfPath) : bool :=
  match p with
  | AbsPath (_ :: _) => true
  | _ => false
  end.

(** [strip_ancestor anc q] is [Some rel] exactly when [q = rel ++ anc]. *)
Definition strip_ancestor (anc q : names) : option names :=
  let k := length q - length anc in
  if decide (length anc <= length q /\ drop k q = anc)
  then Some (take k q) else None.

(** Modelled from the spec: [path.ReplacePrefix(oldPrefix, newPrefix)] with
    [newPrefix] the reflexive relative path yields the suffix of [path]
    relative to [oldPrefix].  The result when [oldPrefix] does not prefix
    [path] is left open; it is [None] here. *)
Definition ReplacePrefix (path oldPrefix : SdfPath) (newPrefix : names)
  : option names :=
  match path, oldPrefix with
  | AbsPath q, AbsPath anc =>
      match strip_ancestor anc q with
      | Some rel => Some (rel ++ newPrefix)
      | None => None
      end
  | _, _ => None
  end.

(** Modelled from the spec: [base.AppendPath(rel)] is [base + rel]. *)
Definition AppendPath (base : SdfPath) (rel : names) : SdfPath :=
  match base with
  | AbsPath m => AbsPath (rel ++ m)
  | EmptyPath => EmptyPath
  end.

(** Root-first spelling for examples: [path_of ["A"; "x"]] is [/A/x]. *)
Definition path_of (l : names) : SdfPath := AbsPath (rev l).

(* ===================================================================== *)
(** ** Stage, prims and the scene-graph accessor *)
(* ===================================================================== *)

(** What the stage records for a prim: whether it is reported as an
    instance, and the path of the prototype the instance cache maps it
    to. *)
Record PrimData : Type := mkPrimData {
  is_instance : bool;
  master_path : option names;
}.

#[global] Instance PrimData_eq_dec : EqDecision PrimData.
Proof. solve_decision. Defined.

Definition plain_prim : PrimData := mkPrimData false None.
Definition instance_of (m : names) : PrimData := mkPrimData true (Some m).

(** Modelled from the spec: UsdStage owns all prims and prototypes; a path
    resolves to at most one prim. *)
Abbreviation Stage := (gmap names PrimData).

(** A prim handle: default-constructed [UsdPrim()] is the invalid
    sentinel, otherwise the handle designates the prim at a path. *)
Inductive UsdPrim : Type :=
| InvalidPrim
| PrimAt (comps : names).

#[global] Instance UsdPrim_eq_dec : EqDecision UsdPrim.
Proof. solve_decision. Defined.

(** [if (UsdPrim p = ...)], [not validAncestor]: the bool conversion. *)
Definition prim_valid (p : UsdPrim) : bool :=
  match p with PrimAt _ => true | InvalidPrim => false end.

Definition GetPath (p : UsdPrim) : SdfPath :=
  match p with PrimAt q => AbsPath q | InvalidPrim => EmptyPath end.

Definition stage_GetPrimAtPath (st : Stage) (p : SdfPath) : UsdPrim :=
  match p with
  | AbsPath q => if decide (is_Some (st !! q)) then PrimAt q else InvalidPrim
  | EmptyPath => InvalidPrim
  end.

Definition stage_IsInstance (st : Stage) (p : UsdPrim) : bool :=
  match p with
  | PrimAt q => match st !! q with Some d => is_instance d | None => false end
  | InvalidPrim => false
  end.

Definition stage_GetMaster (st : Stage) (p : UsdPrim) : UsdPrim :=
  match p with
  | PrimAt q =>
      match st !! q with
      | Some d =>
          match master_path d with
          | Some m => stage_GetPrimAtPath st (AbsPath m)
          | None => InvalidPrim
          end
      | None => InvalidPrim
      end
  | InvalidPrim => InvalidPrim
  end.

(** The prototype's content below [m], re-rooted below [a]: every stored
    strict descendant [rel ++ m] is composed at [rel ++ a]. *)
Definition compose_locally (m a : names) (st : Stage) : Stage :=
  map_fold
    (fun q d acc =>
       match strip_ancestor m q with
       | Some (n :: rel) => <[(n :: rel) ++ a := d]> acc
       | _ => acc
       end)
    st st.

(** Modelled from the spec: [SetInstanceable(false)] on an instance turns
    it into an independently composed subtree in place: the prim is no
    longer an instance and the prototype's content is composed locally
    below it.  [SetInstanceable(true)] is never issued by this file; it
    only records the flag. *)
Definition stage_SetInstanceable (st : Stage) (p : UsdPrim) (b : bool) : Stage :=
  match p with
  | PrimAt a =>
      match st !! a with
      | Some d =>
          if b then <[a := mkPrimData true (master_path d)]> st
          else
            let st' :=
              match stage_GetMaster st p with
              | PrimAt m => if is_instance d then compose_locally m a st else st
              | InvalidPrim => st
              end in
            <[a := plain_prim]> st'
      | None => st
      end
  | InvalidPrim => st
  end.

(* ===================================================================== *)
(** ** Execution monad *)
(* ===================================================================== *)

(** A diagnostic posted through the Tf error system. *)
Inductive Diagnostic : Type :=
| FailedVerify (expr : string).

#[global] Instance Diagnostic_eq_dec : EqDecision Diagnostic.
Proof. solve_decision. Defined.

(** Everything a call can observe or change: the stage, the
    [SetInstanceable] calls issued so far (most recent first), the
    diagnostics posted so far (most recent first), and whether failed
    verifies are configured to be fatal. *)
Record World : Type := mkWorld {
  stage : Stage;
  set_instanceable_calls : list (names * bool);
  diagnostics : list Diagnostic;
  fatal_verify : bool;
}.

Inductive Outcome (A : Type) : Type :=
| Returned (a : A) (w : World)   (* normal return *)
| FatalError (w : World)         (* the process is aborted *)
| Unspecified                    (* a library call outside its contract *)
| OutOfFuel.                     (* recursion deeper than the fuel given *)
Arguments Returned {A} a w.
Arguments FatalError {A} w.
Arguments Unspecified {A}.
Arguments OutOfFuel {A}.

Definition M (A : Type) : Type := World -> Outcome A.

#[global] Instance M_ret : MRet M := fun A a w => Returned a w.
#[global] Instance M_bind : MBind M := fun A B k m w =>
  match m w with
  | Returned a w' => k a w'
  | FatalError w' => FatalError w'
  | Unspecified => Unspecified
  | OutOfFuel => OutOfFuel
  end.

Definition out_of_fuel {A} : M A := fun _ => OutOfFuel.

Definition from_contract {A} (o : option A) : M A := fun w =>
  match o with Some a => Returned a w | None => Unspecified end.

(** The accessor calls, as operations of the monad. *)
Definition GetPrimAtPath (p : SdfPath) : M UsdPrim := fun w =>
  Returned (stage_GetPrimAtPath (stage w) p) w.

Definition IsInstance (p : UsdPrim) : M bool := fun w =>
  Returned (stage_IsInstance (stage w) p) w.

Definition GetMaster (p : UsdPrim) : M UsdPrim := fun w =>
  Returned (stage_GetMaster (stage w) p) w.

Definition after_SetInstanceable (p : UsdPrim) (b : bool) (w : World) : World :=
  mkWorld (stage_SetInstanceable (stage w) p b)
          (match p with
           | PrimAt a => (a, b) :: set_instanceable_calls w
           | InvalidPrim => set_instanceable_calls w
           end)
          (diagnostics w) (fatal_verify w).

Definition SetInstanceable (p : UsdPrim) (b : bool) : M unit := fun w =>
  Returned tt (after_SetInstanceable p b w).

(** Modelled from the spec: TF_VERIFY is declared in
    pxr/base/tf/diagnostic.h.  It yields its condition; when the condition
    is false it posts a diagnostic naming the expression, and the failure
    is either a distinguished error the caller branches on or, when so
    configured, an abort. *)
Definition post_failed_verify (expr : string) (w : World) : World :=
  mkWorld (stage w) (set_instanceable_calls w)
          (FailedVerify expr :: diagnostics w) (fatal_verify w).

Definition TF_VERIFY (cond : bool) (expr : string) : M bool := fun w =>
  if cond then Returned true w
  else
    let w' := post_failed_verify expr w in
    if fatal_verify w then FatalError w' else Returned false w'.

(* ===================================================================== *)
(** ** The two functions of pipeline.cpp *)
(* ===================================================================== *)

(** The ancestor search of both functions,
<<
    while (not validAncestor) {
        if (validAncestorPath == SdfPath::AbsoluteRootPath() or
            validAncestorPath == SdfPath::EmptyPath()) break;
        validAncestorPath = validAncestorPath.GetParentPath();
        validAncestor = stage->GetPrimAtPath(validAncestorPath);
    }
>>
    entered with [validAncestorPath = AbsPath comps] and an invalid
    [validAncestor].  It yields the final values of both variables. *)
Fixpoint ancestor_loop (comps : names) : M (SdfPath * UsdPrim) :=
  match comps with
  | [] => mret (AbsoluteRootPath, InvalidPrim)
  | _ :: rest =>
      validAncestor ← GetPrimAtPath (AbsPath rest);
      if prim_valid validAncestor then mret (AbsPath rest, validAncestor)
      else ancestor_loop rest
  end.

Definition FindValidAncestor (path : SdfPath) : M (SdfPath * UsdPrim) :=
  match path with
  | EmptyPath => mret (EmptyPath, InvalidPrim)
  | AbsPath comps => ancestor_loop comps
  end.

(** [UsdUtilsGetPrimAtPathWithForwarding(stage, path)].  [fuel] bounds the
    depth of the recursion. *)
Fixpoint UsdUtilsGetPrimAtPathWithForwarding (fuel : nat) (path : SdfPath)
  : M UsdPrim :=
  p ← GetPrimAtPath path;
  if prim_valid p then mret p else
  '(validAncestorPath, validAncestor) ← FindValidAncestor path;
  if IsPrimPath validAncestorPath then
    inst ← IsInstance validAncestor;
    if negb inst then mret InvalidPrim else
    instanceRelPath ←
      from_contract (ReplacePrefix path validAncestorPath ReflexiveRelativePath);
    master ← GetMaster validAncestor;
    ok ← TF_VERIFY (prim_valid master) "master";
    if (ok : bool) then
      let masterPath := AppendPath (GetPath master) instanceRelPath in
      match fuel with
      | 0 => out_of_fuel
      | S n => UsdUtilsGetPrimAtPathWithForwarding n masterPath
      end
    else mret InvalidPrim
  else mret InvalidPrim.

(** [UsdUtilsUninstancePrimAtPath(stage, path)].  [fwd] is the fuel of each
    forwarding query, [fuel] bounds the depth of its own recursion. *)
Fixpoint UsdUtilsUninstancePrimAtPath (fwd fuel : nat) (path : SdfPath)
  : M UsdPrim :=
  p ← GetPrimAtPath path;
  if prim_valid p then mret p else
  forwarded ← UsdUtilsGetPrimAtPathWithForwarding fwd path;
  if negb (prim_valid forwarded) then mret InvalidPrim else
  '(validAncestorPath, validAncestor) ← FindValidAncestor path;
  if IsPrimPath validAncestorPath then
    inst ← IsInstance validAncestor;
    ok ← TF_VERIFY inst "validAncestor.IsInstance()";
    if negb ok then mret InvalidPrim else
    _ ← SetInstanceable validAncestor false;
    match fuel with
    | 0 => out_of_fuel
    | S n => UsdUtilsUninstancePrimAtPath fwd n path
    end
  else mret InvalidPrim.

(** The names the specification uses for the two functions. *)
Abbreviation Resolve := UsdUtilsGetPrimAtPathWithForwarding.
Abbreviation Uninstance := UsdUtilsUninstancePrimAtPath.

(** A fresh world around a stage: nothing called, nothing posted. *)
Definition world_of (st : Stage) (fatal : bool) : World := mkWorld st [] [] fatal.

(* ===================================================================== *)
(** ** Example scenes *)
(* ===================================================================== *)

Definition stage_of (l : list (names * PrimData)) : Stage :=
  list_to_map (prod_map (@rev string) id <$> l).

(** One level: [/A] is an instance of [/__Prototypes/P], which holds [x]. *)
Definition scene_single : Stage :=
  stage_of [ (["A"], instance_of ["P"; "__Prototypes"]);
             (["__Prototypes"], plain_prim);
             (["__Prototypes"; "P"], plain_prim);
             (["__Prototypes"; "P"; "x"], plain_prim) ].

(** Two levels: the prototype of [/A] holds an instance [B] of a second
    prototype [/__Prototypes/Q], which holds [y]. *)
Definition scene_nested : Stage :=
  stage_of [ (["A"], instance_of ["P"; "__Prototypes"]);
             (["__Prototypes"], plain_prim);
             (["__Prototypes"; "P"], plain_prim);
             (["__Prototypes"; "P"; "B"], instance_of ["Q"; "__Prototypes"]);
             (["__Prototypes"; "Q"], plain_prim);
             (["__Prototypes"; "Q"; "y"], plain_prim) ].

(** Corrupted composition: [/A] is reported as an instance but its
    prototype path holds no prim. *)
Definition scene_dangling : Stage :=
  stage_of [ (["A"], instance_of ["P"; "__Prototypes"]) ].

(** Malformed composition: [/A] is an instance of itself. *)
Definition scene_cyclic : Stage :=
  stage_of [ (["A"], instance_of ["A"]) ].

Definition world_single : World := world_of scene_single false.
Definition world_nested : World := world_of scene_nested false.
Definition world_dangling : World := world_of scene_dangling false.

(** The world a call leaves behind. *)
Definition final_world {A} (o : Outcome A) (w : World) : World :=
  match o with Returned _ w' | FatalError w' => w' | _ => w end.

(** The world after uninstancing [/A/B/y] in the nested scene. *)
Definition world_nested_uninstanced : World :=
  final_world (Uninstance 2 2 (path_of ["A"; "B"; "y"]) world_nested)
    world_nested.

(** The returned prim of a normally returning call. *)
Definition returned_prim (o : Outcome UsdPrim) : option UsdPrim :=
  match o with Returned p _ => Some p | _ => None end.

(* ===================================================================== *)
(** ** The ancestor search as a function of the stage *)
(* ===================================================================== *)

Fixpoint nearest_ancestor (st : Stage) (comps : names) : SdfPath * UsdPrim :=
  match comps with
  | [] => (AbsoluteRootPath, InvalidPrim)
  | _ :: rest =>
      if decide (is_Some (st !! rest)) then (AbsPath rest, PrimAt rest)
      else nearest_ancestor st rest
  end.

Definition find_valid_ancestor (st : Stage) (path : SdfPath) : SdfPath * UsdPrim :=
  match path with
  | EmptyPath => (EmptyPath, InvalidPrim)
  | AbsPath comps => nearest_ancestor st comps
  end.

(** What one activation of the forwarding query does, read off the stage:
    it finds the prim, misses, meets an instance whose prototype does not
    resolve, or forwards to a path inside the prototype. *)
Inductive Hop : Type :=
| HopFound (q : names)
| HopMiss
| HopDangling
| HopOutside
| HopForward (p : SdfPath).

Definition hop (st : Stage) (path : SdfPath) : Hop :=
  match stage_GetPrimAtPath st path with
  | PrimAt q => HopFound q
  | InvalidPrim =>
      let '(validAncestorPath, validAncestor) := find_valid_ancestor st path in
      if IsPrimPath validAncestorPath then
        if stage_IsInstance st validAncestor then
          match ReplacePrefix path validAncestorPath ReflexiveRelativePath with
          | None => HopOutside
          | Some rel =>
              match stage_GetMaster st validAncestor with
              | InvalidPrim => HopDangling
              | PrimAt m => HopForward (AppendPath (AbsPath m) rel)
              end
          end
        else HopMiss
      else HopMiss
  end.

(** The outcome of a failed verify whose caller returns [a]. *)
Definition after_failed_verify {A} (expr : string) (a : A) : M A := fun w =>
  if fatal_verify w then FatalError (post_failed_verify expr w)
  else Returned a (post_failed_verify expr w).

(** Frame of the forwarding query: whatever the outcome, the stage and the
    record of [SetInstanceable] calls are those it started with, and the
    only diagnostic it can post is the failed verify of [master]. *)
Definition query_frame (w : World) (o : Outcome UsdPrim) : Prop :=
  match o with
  | Returned r w' =>
      w' = w \/ (r = InvalidPrim /\ fatal_verify w = false /\
                 w' = post_failed_verify "master" w)
  | FatalError w' =>
      fatal_verify w = true /\ w' = post_failed_verify "master" w
  | Unspecified => False
  | OutOfFuel => True
  end.

(* ===================================================================== *)
(** ** Well-nested stages *)
(* ===================================================================== *)

(** [q] lies strictly below [a]. *)
Definition strictly_below (a q : names) : Prop :=
  exists n rel, q = (n :: rel) ++ a.








Ltac munfold :=
  unfold mbind, M_bind, mret, M_ret, GetPrimAtPath, IsInstance, GetMaster,
    from_contract, out_of_fuel, TF_VERIFY, after_failed_verify in *.


(* ===================================================================== *)
(** ** The conventions of pipeline.cpp: up axis, alpha name, model name *)
(* ===================================================================== *)

From Stdlib Require Import Ascii.

(** A type-erased value as [GetCustomDataByKey] returns it: empty, holding
    a bool, or holding something else. *)
Inductive VtValue : Type :=
| VtEmpty
| VtBool (b : bool)
| VtOther (held : string).

#[global] Instance VtValue_eq_dec : EqDecision VtValue.
Proof. solve_decision. Defined.

(** A child of the pseudo-root, with what the up-axis query reads of it:
    whether it is defined, whether it is abstract, and its [zUp]
    customData. *)
Record RootChild : Type := mkRootChild {
  child_name : string;
  child_defined : bool;
  child_abstract : bool;
  child_zUp : VtValue;
}.

(** The stage as the up-axis query sees it: the identifier of its root
    layer and the children of its pseudo-root, in order. *)
Record CameraStage : Type := mkCameraStage {
  root_layer_identifier : string;
  pseudo_root_children : list RootChild;
}.

(** [GetFilteredChildren(UsdPrimIsDefined and not UsdPrimIsAbstract)]. *)
Definition considered (c : RootChild) : bool :=
  child_defined c && negb (child_abstract c).

Definition GetFilteredChildren (st : CameraStage) : list RootChild :=
  List.filter considered (pseudo_root_children st).

(** A warning posted by [TF_WARN], naming the root layer. *)
Inductive Warning : Type :=
| NonBooleanZup (layer : string).

(** The [TF_FOR_ALL] loop of [UsdUtilsGetCamerasAreZup], entered with the
    current value of [hasZupCamera]; it yields the value returned and the
    warnings posted, in order. *)
Fixpoint zUp_loop (layer : string) (prims : list RootChild)
    (hasZupCamera : bool) : bool * list Warning :=
  match prims with
  | [] => (hasZupCamera, [])
  | prim :: rest =>
      match child_zUp prim with
      | VtEmpty => zUp_loop layer rest hasZupCamera
      | VtBool true => zUp_loop layer rest true
      | VtBool false => (false, [])
      | VtOther _ =>
          let '(r, ws) := zUp_loop layer rest hasZupCamera in
          (r, NonBooleanZup layer :: ws)
      end
  end.

(** [UsdUtilsGetCamerasAreZup(stage)]; [None] is the null stage pointer. *)
Definition UsdUtilsGetCamerasAreZup (stage : option CameraStage)
  : bool * list Warning :=
  match stage with
  | None => (false, [])
  | Some st =>
      zUp_loop (root_layer_identifier st) (GetFilteredChildren st) false
  end.

(** The child holds a [zUp] value that is neither empty nor a bool. *)
Definition holds_other (c : RootChild) : bool :=
  match child_zUp c with VtOther _ => true | _ => false end.

(** [UsdUtilsGetAlphaAttributeNameForColor(colorAttrName)]; a token is its
    string. *)
Definition UsdUtilsGetAlphaAttributeNameForColor (colorAttrName : string)
  : string :=
  String.append colorAttrName "_A".

(** [UsdUtilsGetPrimaryUVSetName()]. *)
Definition UsdUtilsGetPrimaryUVSetName : string := "st".

Inductive SdfSpecifier : Type :=
| SdfSpecifierDef
| SdfSpecifierOver
| SdfSpecifierClass.

#[global] Instance SdfSpecifier_eq_dec : EqDecision SdfSpecifier.
Proof. solve_decision. Defined.

Record SdfPrimSpec : Type := mkPrimSpec {
  GetNameToken : string;
  GetSpecifier : SdfSpecifier;
}.

(** The root layer as the model-name query sees it: its default-prim
    metadata (empty when unset), its real path and its root prim specs, in
    order. *)
Record SdfLayer : Type := mkLayer {
  GetDefaultPrim : string;
  GetRealPath : string;
  GetRootPrims : list SdfPrimSpec;
}.

(** [rootLayer->GetPrimAtPath(AbsoluteRootPath().AppendChild(name))]: the
    prims of a layer directly below the root are its root prims. *)
Definition layer_has_root_prim (rootLayer : SdfLayer) (name : string) : bool :=
  existsb (fun p => bool_decide (GetNameToken p = name)) (GetRootPrims rootLayer).

(** [baseName.substr(0, baseName.find('.'))]: the characters before the
    first dot, the whole string when there is none. *)
Fixpoint before_first_dot (s : string) : string :=
  match s with
  | EmptyString => EmptyString
  | String c rest =>
      if decide (c = "."%char) then EmptyString
      else String c (before_first_dot rest)
  end.

Definition IsEmpty (s : string) : bool :=
  match s with EmptyString => true | _ => false end.

(** The last loop of [UsdUtilsGetModelNameFromRootLayer]: the name of the
    first root prim that is not a class, if there is one. *)
Fixpoint first_non_class (prims : list SdfPrimSpec) : option string :=
  match prims with
  | [] => None
  | rootPrim :: rest =>
      if decide (GetSpecifier rootPrim <> SdfSpecifierClass)
      then Some (GetNameToken rootPrim)
      else first_non_class rest
  end.

(** [UsdUtilsGetModelNameFromRootLayer(rootLayer)].  [TfGetBaseName] is
    declared in pxr/base/tf/pathUtils.h and is taken as a parameter. *)
Definition UsdUtilsGetModelNameFromRootLayer
    (TfGetBaseName : string -> string) (rootLayer : SdfLayer) : string :=
  let modelName := GetDefaultPrim rootLayer in
  if negb (IsEmpty modelName) then modelName else
  let filePath := GetRealPath rootLayer in
  let baseName := TfGetBaseName filePath in
  let modelName := before_first_dot baseName in
  if negb (IsEmpty modelName) && layer_has_root_prim rootLayer modelName
  then modelName
  else
    match first_non_class (GetRootPrims rootLayer) with
    | Some name => name
    | None => modelName
    end.

(** A base-name function for the examples: what follows the last slash. *)
Fixpoint has_slash (s : string) : bool :=
  match s with
  | EmptyString => false
  | String c rest => bool_decide (c = "/"%char) || has_slash rest
  end.

Fixpoint after_last_slash (s : string) : string :=
  match s with
  | EmptyString => EmptyString
  | String c rest =>
      if has_slash rest then after_last_slash rest
      else if decide (c = "/"%char) then rest else s
  end.

Definition layer_chair : SdfLayer :=
  mkLayer "" "/assets/chair/chair.geom.usd"
    [ mkPrimSpec "_class_Chair" SdfSpecifierClass;
      mkPrimSpec "materials" SdfSpecifierDef;
      mkPrimSpec "chair" SdfSpecifierClass ].

Definition stage_cameras : CameraStage :=
  mkCameraStage "shot.usd"
    [ mkRootChild "camA" true false (VtBool true);
      mkRootChild "notes" true false (VtOther "string");
      mkRootChild "camClass" true true (VtBool false);
      mkRootChild "set" true false VtEmpty ].

(* ===================================================================== *)
(** ** The registered variant sets *)
(* ===================================================================== *)

(** A JSON value as the plugin metadata holds it.  An object lists its
    entries in iteration order. *)
#[warnings="-register-all"] Inductive JsValue : Type :=
| JsNull
| JsString (s : string)
| JsObject (entries : list (string * JsValue))
| JsOther (kind : string).

(** [TfMapLookup(map, key, &value)]: the value stored under [key]. *)
Fixpoint TfMapLookup (map : list (string * JsValue)) (key : string)
  : option JsValue :=
  match map with
  | [] => None
  | (k, v) :: rest => if decide (k = key) then Some v else TfMapLookup rest key
  end.

(** [info[key]]: the value stored under [key], a null value when there is
    none. *)
Definition js_index (info : list (string * JsValue)) (key : string) : JsValue :=
  match TfMapLookup info key with Some v => v | None => JsNull end.

(** Modelled from the spec: JsValue is declared in pxr/base/js/value.h.
    [GetString()] yields the string a value holds, and the empty string
    for a value that holds none. *)
Definition GetString (v : JsValue) : string :=
  match v with JsString s => s | _ => "" end.

Record PlugPlugin : Type := mkPlugin {
  GetName : string;
  GetMetadata : list (string * JsValue);
}.

Inductive SelectionExportPolicy : Type :=
| Never
| IfAuthored
| Always.

#[global] Instance SelectionExportPolicy_eq_dec : EqDecision SelectionExportPolicy.
Proof. solve_decision. Defined.

Record UsdUtilsRegisteredVariantSet : Type := mkRegisteredVariantSet {
  name : string;
  selectionExportPolicy : SelectionExportPolicy;
}.

#[global] Instance UsdUtilsRegisteredVariantSet_eq_dec :
  EqDecision UsdUtilsRegisteredVariantSet.
Proof. solve_decision. Defined.

(** The coding errors the initialiser posts, by message. *)
Inductive CodingError : Type :=
| PipelineNotDictionary (plug : string)
| RegisteredVariantSetsNotDictionary (plug : string)
| VariantSetNotDictionary (plug variantSetName : string)
| VariantSetNotValid (plug variantSetName : string).

(** What the initialiser has done so far: the [insert] calls on
    [_regVarSets] and the coding errors posted, both in order. *)
Record Registry : Type := mkRegistry {
  inserted : list UsdUtilsRegisteredVariantSet;
  coding_errors : list CodingError;
}.

Definition registry_insert (r : Registry) (v : UsdUtilsRegisteredVariantSet)
  : Registry :=
  mkRegistry (inserted r ++ [v]) (coding_errors r).

Definition TF_CODING_ERROR (r : Registry) (e : CodingError) : Registry :=
  mkRegistry (inserted r) (coding_errors r ++ [e]).

(** The range-for over [registeredVariantSets]. *)
Fixpoint variant_sets_loop (plug : string)
    (registeredVariantSets : list (string * JsValue)) (r : Registry)
  : Registry :=
  match registeredVariantSets with
  | [] => r
  | (variantSetName, v) :: rest =>
      match v with
      | JsObject info =>
          let variantSetType :=
            GetString (js_index info "selectionExportPolicy") in
          if decide (variantSetType = "never") then
            variant_sets_loop plug rest
              (registry_insert r (mkRegisteredVariantSet variantSetName Never))
          else if decide (variantSetType = "ifAuthored") then
            variant_sets_loop plug rest
              (registry_insert r
                 (mkRegisteredVariantSet variantSetName IfAuthored))
          else if decide (variantSetType = "always") then
            variant_sets_loop plug rest
              (registry_insert r (mkRegisteredVariantSet variantSetName Always))
          else
            variant_sets_loop plug rest
              (TF_CODING_ERROR r (VariantSetNotValid plug variantSetName))
      | _ =>
          variant_sets_loop plug rest
            (TF_CODING_ERROR r (VariantSetNotDictionary plug variantSetName))
      end
  end.

(** The [TF_FOR_ALL] over the plugins, that is the body of
    [TF_MAKE_STATIC_DATA(std::set<UsdUtilsRegisteredVariantSet>,
    _regVarSets)]. *)
Fixpoint plugins_loop (plugs : list PlugPlugin) (r : Registry) : Registry :=
  match plugs with
  | [] => r
  | plug :: rest =>
      let metadata := GetMetadata plug in
      match TfMapLookup metadata "UsdUtilsPipeline" with
      | Some pipelineUtilsDictValue =>
          match pipelineUtilsDictValue with
          | JsObject pipelineUtilsDict =>
              match TfMapLookup pipelineUtilsDict "RegisteredVariantSets" with
              | Some registeredVariantSetsValue =>
                  match registeredVariantSetsValue with
                  | JsObject registeredVariantSets =>
                      plugins_loop rest
                        (variant_sets_loop (GetName plug)
                           registeredVariantSets r)
                  | _ =>
                      plugins_loop rest
                        (TF_CODING_ERROR r
                           (RegisteredVariantSetsNotDictionary (GetName plug)))
                  end
              | None => plugins_loop rest r
              end
          | _ =>
              plugins_loop rest
                (TF_CODING_ERROR r (PipelineNotDictionary (GetName plug)))
          end
      | None => plugins_loop rest r
      end
  end.

Definition _regVarSets (plugs : list PlugPlugin) : Registry :=
  plugins_loop plugs (mkRegistry [] []).




(** Two registries, one after the other. *)
Definition registry_append (r1 r2 : Registry) : Registry :=
  mkRegistry (inserted r1 ++ inserted r2) (coding_errors r1 ++ coding_errors r2).

Definition plugins_example : list PlugPlugin :=
  [ mkPlugin "broken" [ ("UsdUtilsPipeline", JsString "oops") ];
    mkPlugin "plain" [ ("Info", JsObject []) ];
    mkPlugin "studio"
      [ ("UsdUtilsPipeline",
         JsObject
           [ ("RegisteredVariantSets",
              JsObject
                [ ("lod", JsObject [ ("selectionExportPolicy", JsOther "int") ]);
                  ("modelingVariant",
                   JsObject [ ("selectionExportPolicy", JsString "always") ]);
                  ("shadingVariant", JsString "never");
                  ("standin",
                   JsObject [ ("selectionExportPolicy", JsString "never") ])
                ]) ]) ] ].

(* ===================================================================== *)
(** ** Shapes of a run of the mutator *)
(* ===================================================================== *)

(** A record of [SetInstanceable] calls, most recent first, in which every
    call targets a prim strictly below the targets of all earlier calls. *)
Fixpoint nested_inward (calls : list (names * bool)) : Prop :=
  match calls with
  | [] => True
  | (a, _) :: earlier =>
      (forall a' b', (a', b') ∈ earlier -> strictly_below a' a) /\
      nested_inward earlier
  end.

(** The number of name components of a path. *)
Definition path_depth (p : SdfPath) : nat :=
  match p with AbsPath comps => length comps | EmptyPath => 0 end.
(* ===================================================================== *)
(** ** Paths: basic facts *)
(* ===================================================================== *)

Lemma strip_ancestor_Some anc q rel :
  strip_ancestor anc q = Some rel <-> q = rel ++ anc.
Proof.
  unfold strip_ancestor. split.
  - case_decide as H; [|discriminate]. intros [= <-].
    destruct H as [_ H].
    rewrite <- (take_drop (length q - length anc) q) at 1. by rewrite H.
  - intros ->. rewrite length_app.
    replace (length rel + length anc - length anc) with (length rel) by lia.
    rewrite drop_app_length, take_app_length.
    case_decide as H; [done|]. exfalso. apply H. split; [lia|done].
Qed.

Lemma strip_ancestor_app anc rel : strip_ancestor anc (rel ++ anc) = Some rel.
Proof. by apply strip_ancestor_Some. Qed.


(* ===================================================================== *)
(** ** The ancestor search *)
(* ===================================================================== *)

Lemma ancestor_loop_run comps w :
  ancestor_loop comps w = Returned (nearest_ancestor (stage w) comps) w.
Proof.
  induction comps as [|n rest IH]; [done|].
  simpl. munfold. simpl. case_decide; simpl; [done|apply IH].
Qed.

Lemma FindValidAncestor_run path w :
  FindValidAncestor path w = Returned (find_valid_ancestor (stage w) path) w.
Proof. destruct path; [done|apply ancestor_loop_run]. Qed.

(** One turn of the [while] loop, as the source spells it. *)
Lemma FindValidAncestor_loop path :
  FindValidAncestor path =
    if decide (path = AbsoluteRootPath \/ path = EmptyPath)
    then mret (path, InvalidPrim)
    else
      validAncestor ← GetPrimAtPath (GetParentPath path);
      if prim_valid validAncestor
      then mret (GetParentPath path, validAncestor)
      else FindValidAncestor (GetParentPath path).
Proof.
  destruct path as [|[|n rest]];
    cbn [FindValidAncestor ancestor_loop GetParentPath];
    destruct (decide _) as [[H|H]|H]; try done; exfalso; apply H; auto.
Qed.

(** What the search finds: the nearest strict ancestor that holds a prim. *)
Lemma nearest_ancestor_prim st comps n a va :
  nearest_ancestor st comps = (AbsPath (n :: a), va) ->
  va = PrimAt (n :: a) /\ is_Some (st !! (n :: a)) /\
  exists rel, rel <> [] /\ comps = rel ++ n :: a /\
    forall r1 r2, rel = r1 ++ r2 -> r1 <> [] -> r2 <> [] ->
                  st !! (r2 ++ n :: a) = None.
Proof.
  induction comps as [|c rest IH]; simpl; [done|].
  case_decide as Hs.
  - intros [= -> <-]. split_and!; [done..|].
    exists [c]. split_and!; [done..|].
    intros [|x [|y r1]] r2 [=] ? ?; simplify_eq; done.
  - intros E. destruct (IH E) as (-> & Hsome & rel & Hrel & -> & Hgap).
    split_and!; [done..|]. exists (c :: rel). split_and!; [done..|].
    intros [|x r1] r2 [=] ? ?; [done|]. subst.
    destruct r1 as [|y r1].
    + simpl in *. apply eq_None_not_Some. exact Hs.
    + apply (Hgap (y :: r1) r2); done.
Qed.

(* ===================================================================== *)
(** ** The forwarding query, one activation at a time *)
(* ===================================================================== *)

Lemma Resolve_unfold fuel path w :
  Resolve fuel path w =
    match hop (stage w) path with
    | HopFound q => Returned (PrimAt q) w
    | HopMiss => Returned InvalidPrim w
    | HopDangling => after_failed_verify "master" InvalidPrim w
    | HopOutside => Unspecified
    | HopForward p' =>
        match fuel with 0 => OutOfFuel | S n => Resolve n p' w end
    end.
Proof.
  unfold hop.
  destruct fuel; cbn [UsdUtilsGetPrimAtPathWithForwarding].
  all: unfold mbind at 1, M_bind at 1, GetPrimAtPath at 1.
  all: destruct (stage_GetPrimAtPath (stage w) path) eqn:Ep; [|done].
  all: cbn [prim_valid]; unfold mbind at 1, M_bind at 1.
  all: rewrite FindValidAncestor_run.
  all: destruct (find_valid_ancestor (stage w) path) as [vap va].
  all: destruct (IsPrimPath vap); [|done].
  all: munfold; destruct (stage_IsInstance (stage w) va); [|done].
  all: cbn [negb];
    destruct (ReplacePrefix path vap ReflexiveRelativePath); [|done].
  all: destruct (stage_GetMaster (stage w) va); cbn [prim_valid]; [|done].
  all: by destruct (fatal_verify w).
Qed.

Lemma find_valid_ancestor_prim st path n a va :
  find_valid_ancestor st path = (AbsPath (n :: a), va) ->
  va = PrimAt (n :: a) /\ is_Some (st !! (n :: a)) /\
  exists rel, rel <> [] /\ path = AbsPath (rel ++ n :: a) /\
    forall r1 r2, rel = r1 ++ r2 -> r1 <> [] -> r2 <> [] ->
                  st !! (r2 ++ n :: a) = None.
Proof.
  destruct path as [|comps]; simpl; [done|].
  intros E. destruct (nearest_ancestor_prim _ _ _ _ _ E)
    as (-> & ? & rel & ? & -> & ?). eauto 10.
Qed.

Lemma IsPrimPath_inv p : IsPrimPath p = true -> exists n a, p = AbsPath (n :: a).
Proof. destruct p as [|[|n a]]; simpl; [done..|eauto]. Qed.

Lemma ReplacePrefix_app rel anc :
  ReplacePrefix (AbsPath (rel ++ anc)) (AbsPath anc) ReflexiveRelativePath
  = Some rel.
Proof.
  unfold ReplacePrefix, ReflexiveRelativePath.
  by rewrite strip_ancestor_app, app_nil_r.
Qed.

Lemma find_valid_ancestor_ReplacePrefix st path vap va :
  find_valid_ancestor st path = (vap, va) -> IsPrimPath vap = true ->
  exists rel, rel <> [] /\
    ReplacePrefix path vap ReflexiveRelativePath = Some rel /\
    path = AppendPath vap rel.
Proof.
  intros E Hp. destruct (IsPrimPath_inv _ Hp) as (n & a & ->).
  destruct (find_valid_ancestor_prim _ _ _ _ _ E)
    as (_ & _ & rel & Hrel & -> & _).
  exists rel. split_and!; [done|apply ReplacePrefix_app|done].
Qed.

(** The prefix handed to [ReplacePrefix] always prefixes the path. *)
Lemma hop_not_outside st path : hop st path <> HopOutside.
Proof.
  unfold hop. destruct (stage_GetPrimAtPath st path); [|done].
  destruct (find_valid_ancestor st path) as [vap va] eqn:E.
  destruct (IsPrimPath vap) eqn:Hp; [|done].
  destruct (IsPrimPath_inv _ Hp) as (n & a & ->).
  destruct (find_valid_ancestor_prim _ _ _ _ _ E)
    as (-> & _ & rel & _ & -> & _).
  rewrite ReplacePrefix_app.
  destruct (stage_IsInstance _ _); [|done]. by destruct (stage_GetMaster _ _).
Qed.

Lemma Resolve_frame fuel path w : query_frame w (Resolve fuel path w).
Proof.
  revert path. induction fuel as [|n IH]; intros path;
    rewrite Resolve_unfold;
    pose proof (hop_not_outside (stage w) path) as Hout;
    destruct (hop (stage w) path); simpl; auto.
  all: unfold after_failed_verify; destruct (fatal_verify w) eqn:Hf; simpl;
    auto.
Qed.

Lemma Resolve_valid_world fuel path w q w' :
  Resolve fuel path w = Returned (PrimAt q) w' -> w' = w.
Proof.
  intros E. pose proof (Resolve_frame fuel path w) as H. rewrite E in H.
  simpl in H. by destruct H as [|[? _]].
Qed.

Lemma Resolve_returned_stage fuel path w r w' :
  Resolve fuel path w = Returned r w' ->
  stage w' = stage w /\ set_instanceable_calls w' = set_instanceable_calls w
  /\ fatal_verify w' = fatal_verify w.
Proof.
  intros E. pose proof (Resolve_frame fuel path w) as H. rewrite E in H.
  simpl in H. destruct H as [->|(_ & _ & ->)]; split_and!; done.
Qed.

Lemma stage_GetPrimAtPath_valid st path q :
  stage_GetPrimAtPath st path = PrimAt q <->
  path = AbsPath q /\ is_Some (st !! q).
Proof.
  destruct path as [|c]; simpl.
  - split; [done|by intros [? _]].
  - case_decide as H; split.
    + by intros [= ->].
    + by intros [[= ->] _].
    + done.
    + intros [[= ->] ?]. done.
Qed.

Lemma stage_GetPrimAtPath_invalid st comps :
  stage_GetPrimAtPath st (AbsPath comps) = InvalidPrim <-> st !! comps = None.
Proof.
  simpl. case_decide as H; split; try done.
  - intros E. rewrite E in H. by destruct H.
  - intros _. by apply eq_None_not_Some.
Qed.

(** A valid result of the query is a prim of the stage. *)
Lemma Resolve_valid_exists fuel path w q w' :
  Resolve fuel path w = Returned (PrimAt q) w' ->
  stage_GetPrimAtPath (stage w) (AbsPath q) = PrimAt q.
Proof.
  revert path. induction fuel as [|n IH]; intros path;
    rewrite Resolve_unfold; unfold hop.
  all: destruct (stage_GetPrimAtPath (stage w) path) as [|q0] eqn:Ep.
  all: try (intros [= -> _]; apply stage_GetPrimAtPath_valid in Ep as [_ ?];
            by apply stage_GetPrimAtPath_valid).
  all: destruct (find_valid_ancestor (stage w) path) as [vap va].
  all: destruct (IsPrimPath vap); [|done].
  all: destruct (stage_IsInstance _ _); [|done].
  all: destruct (ReplacePrefix _ _ _); [|done].
  all: destruct (stage_GetMaster _ _); [unfold after_failed_verify;
                                         by destruct (fatal_verify w)|].
  - done.
  - apply IH.
Qed.

(* ===================================================================== *)
(** ** The uninstancing mutator, one activation at a time *)
(* ===================================================================== *)

Lemma Uninstance_unfold fwd fuel path w :
  Uninstance fwd fuel path w =
    match stage_GetPrimAtPath (stage w) path with
    | PrimAt q => Returned (PrimAt q) w
    | InvalidPrim =>
        match Resolve fwd path w with
        | Returned (PrimAt _) w1 =>
            let '(validAncestorPath, validAncestor) :=
              find_valid_ancestor (stage w1) path in
            if IsPrimPath validAncestorPath then
              if stage_IsInstance (stage w1) validAncestor then
                match fuel with
                | 0 => OutOfFuel
                | S n => Uninstance fwd n path
                           (after_SetInstanceable validAncestor false w1)
                end
              else after_failed_verify "validAncestor.IsInstance()"
                     InvalidPrim w1
            else Returned InvalidPrim w1
        | Returned InvalidPrim w1 => Returned InvalidPrim w1
        | FatalError w1 => FatalError w1
        | Unspecified => Unspecified
        | OutOfFuel => OutOfFuel
        end
    end.
Proof.
  destruct fuel; cbn [UsdUtilsUninstancePrimAtPath].
  all: unfold mbind at 1, M_bind at 1, GetPrimAtPath at 1.
  all: destruct (stage_GetPrimAtPath (stage w) path) eqn:Ep; [|done].
  all: cbn [prim_valid]; unfold mbind at 1, M_bind at 1.
  all: destruct (Resolve fwd path w) as [[|q] w1| | |]; try done.
  all: cbn [prim_valid negb]; unfold mbind at 1, M_bind at 1.
  all: rewrite FindValidAncestor_run.
  all: destruct (find_valid_ancestor (stage w1) path) as [vap va].
  all: destruct (IsPrimPath vap); [|done].
  all: unfold mbind, M_bind, IsInstance, TF_VERIFY, SetInstanceable,
         after_failed_verify, out_of_fuel.
  all: destruct (stage_IsInstance (stage w1) va); [done|].
  all: by destruct (fatal_verify w1).
Qed.

(* ===================================================================== *)
(** ** Properties of the forwarding query *)
(* ===================================================================== *)

(** C10.  Whenever the ancestor search of the query ends on a prim path,
    that path is a proper prefix of the target path: [ReplacePrefix] is
    called inside its contract, it yields a non-empty suffix, and appending
    the suffix to the ancestor gives the target back.  Consequently no
    activation, at any recursion level, ever leaves the contract. *)
Theorem ancestor_prefixes_path :
  (forall w path validAncestorPath validAncestor w',
      FindValidAncestor path w = Returned (validAncestorPath, validAncestor) w' ->
      IsPrimPath validAncestorPath = true ->
      exists rel, rel <> [] /\
        ReplacePrefix path validAncestorPath ReflexiveRelativePath = Some rel /\
        path = AppendPath validAncestorPath rel) /\
  (forall fuel path w, Resolve fuel path w <> Unspecified).
Proof.
  split.
  - intros w path vap va w'. rewrite FindValidAncestor_run.
    intros [= E <-] Hp. by eapply find_valid_ancestor_ReplacePrefix.
  - intros fuel path w E. pose proof (Resolve_frame fuel path w) as H.
    by rewrite E in H.
Qed.

Lemma ancestor_prefixes_path_witness :
  exists rel, rel <> [] /\
    ReplacePrefix (path_of ["A"; "B"; "y"]) (path_of ["A"])
      ReflexiveRelativePath = Some rel /\
    path_of ["A"; "B"; "y"] = AppendPath (path_of ["A"]) rel.
Proof.
  apply (proj1 ancestor_prefixes_path world_nested
           (path_of ["A"; "B"; "y"]) (path_of ["A"]) (PrimAt ["A"])
           world_nested).
  - vm_compute. reflexivity.
  - reflexivity.
Defined.


(** C1.  When no prim exists at [path] and the ancestor search ends on an
    instance prim whose prototype resolves, the query equals its recursive
    call on [master.GetPath() + instanceRelPath].  In particular, for an
    instance at [a] whose prototype at [m] is not itself an instance, the
    query for [a/x] returns what [GetPrimAtPath(m/x)] returns. *)
Theorem forwarding_through_instance :
  (forall fuel w path validAncestorPath validAncestor master instanceRelPath,
      GetPrimAtPath path w = Returned InvalidPrim w ->
      FindValidAncestor path w = Returned (validAncestorPath, validAncestor) w ->
      IsPrimPath validAncestorPath = true ->
      IsInstance validAncestor w = Returned true w ->
      GetMaster validAncestor w = Returned master w ->
      prim_valid master = true ->
      ReplacePrefix path validAncestorPath ReflexiveRelativePath
        = Some instanceRelPath ->
      Resolve (S fuel) path w
      = Resolve fuel (AppendPath (GetPath master) instanceRelPath) w) /\
  (forall fuel w n a m x dm,
      stage w !! (n :: a) = Some (instance_of m) ->
      stage w !! m = Some dm -> is_instance dm = false ->
      stage w !! (x :: n :: a) = None ->
      Resolve (S fuel) (AbsPath (x :: n :: a)) w
      = GetPrimAtPath (AbsPath (x :: m)) w).
Proof.
  split.
  - intros fuel w path vap va master rel Hp Ha Hprim Hi Hm Hv Hr.
    rewrite FindValidAncestor_run in Ha.
    injection Hp as Hp. injection Ha as Ha. injection Hi as Hi.
    injection Hm as Hm.
    rewrite Resolve_unfold. unfold hop. rewrite Hp, Ha, Hprim, Hi, Hr, Hm.
    by destruct master.
  - intros fuel w n a m x dm Ha Hm Hdm Hx.
    rewrite Resolve_unfold. unfold hop.
    rewrite (proj2 (stage_GetPrimAtPath_invalid _ _) Hx).
    cbn [find_valid_ancestor nearest_ancestor].
    rewrite decide_True by (by rewrite Ha). cbn [IsPrimPath].
    change (x :: n :: a) with ([x] ++ n :: a). rewrite ReplacePrefix_app.
    unfold stage_IsInstance, stage_GetMaster. rewrite Ha.
    cbn [is_instance master_path instance_of stage_GetPrimAtPath].
    rewrite decide_True by (by rewrite Hm). cbn [AppendPath app].
    rewrite Resolve_unfold. unfold hop, GetPrimAtPath.
    destruct (stage_GetPrimAtPath (stage w) (AbsPath (x :: m))) eqn:E; [|done].
    cbn [find_valid_ancestor nearest_ancestor].
    rewrite decide_True by (by rewrite Hm).
    unfold stage_IsInstance. rewrite Hm, Hdm.
    by destruct (IsPrimPath _).
Qed.

Lemma forwarding_through_instance_witness :
  Resolve 1 (path_of ["A"; "x"]) world_single
  = Resolve 0 (path_of ["__Prototypes"; "P"; "x"]) world_single
  /\
  Resolve 1 (path_of ["A"; "x"]) world_single
  = GetPrimAtPath (path_of ["__Prototypes"; "P"; "x"])
      world_single.
Proof.
  split.
  - apply (proj1 forwarding_through_instance 0 world_single
             (path_of ["A"; "x"]) (path_of ["A"]) (PrimAt ["A"])
             (PrimAt ["P"; "__Prototypes"]) ["x"]);
      vm_compute; reflexivity.
  - apply (proj2 forwarding_through_instance 0 world_single
             "A" [] ["P"; "__Prototypes"] "x" plain_prim);
      vm_compute; reflexivity.
Defined.

(** C3.  Fast path: when a prim already exists at [path], the query and
    the mutator both return exactly that prim and leave the world (stage,
    record of [SetInstanceable] calls, diagnostics) untouched. *)
Theorem fast_path_returns_prim :
  forall fwd fuel path w p,
    GetPrimAtPath path w = Returned p w -> prim_valid p = true ->
    Resolve fuel path w = Returned p w /\
    Uninstance fwd fuel path w = Returned p w.
Proof.
  intros fwd fuel path w [|q] [= E] Hv; [done|]. split.
  - rewrite Resolve_unfold. unfold hop. by rewrite E.
  - rewrite Uninstance_unfold. by rewrite E.
Qed.

Lemma fast_path_returns_prim_witness :
  Resolve 0 (path_of ["__Prototypes"; "P"; "B"]) world_nested
  = Returned (PrimAt ["B"; "P"; "__Prototypes"]) world_nested
  /\
  Uninstance 0 0 (path_of ["__Prototypes"; "P"; "B"])
    world_nested
  = Returned (PrimAt ["B"; "P"; "__Prototypes"]) world_nested.
Proof.
  apply (fast_path_returns_prim 0 0 (path_of ["__Prototypes"; "P"; "B"])
           world_nested (PrimAt ["B"; "P"; "__Prototypes"]));
    vm_compute; reflexivity.
Defined.

(** Without an instance among the strict ancestors there is nothing to
    forward through. *)
Lemma hop_miss st path :
  stage_GetPrimAtPath st path = InvalidPrim ->
  (forall anc rel d, path = AbsPath (rel ++ anc) -> rel <> [] ->
                     st !! anc = Some d -> is_instance d = false) ->
  hop st path = HopMiss.
Proof.
  intros Hp Hanc. unfold hop. rewrite Hp.
  destruct (find_valid_ancestor st path) as [vap va] eqn:E.
  destruct (IsPrimPath vap) eqn:Hprim; [|done].
  destruct (IsPrimPath_inv _ Hprim) as (n & a & ->).
  destruct (find_valid_ancestor_prim _ _ _ _ _ E)
    as (-> & [d Hd] & rel & Hrel & -> & _).
  unfold stage_IsInstance. rewrite Hd.
  by rewrite (Hanc (n :: a) rel d eq_refl Hrel Hd).
Qed.

(** C4.  No-instancing miss: when no prim exists at [path] and every
    strict ancestor either does not exist or exists but is not an
    instance, the query and the mutator both return the invalid sentinel
    and leave the world untouched. *)
Theorem miss_without_instancing :
  forall fwd fuel path w,
    GetPrimAtPath path w = Returned InvalidPrim w ->
    (forall anc rel d,
        path = AppendPath (AbsPath anc) rel -> rel <> [] ->
        stage w !! anc = Some d -> is_instance d = false) ->
    Resolve fuel path w = Returned InvalidPrim w /\
    Uninstance fwd fuel path w = Returned InvalidPrim w.
Proof.
  intros fwd fuel path w [= Hp] Hanc.
  assert (Resolve fwd path w = Returned InvalidPrim w /\
          Resolve fuel path w = Returned InvalidPrim w) as [Hf Hr].
  { split; rewrite Resolve_unfold; by rewrite (hop_miss _ _ Hp Hanc). }
  split; [done|]. rewrite Uninstance_unfold. by rewrite Hp, Hf.
Qed.

Lemma miss_without_instancing_witness :
  Resolve 2 (path_of ["__Prototypes"; "P"; "z"; "t"])
    world_single
  = Returned InvalidPrim world_single /\
  Uninstance 2 2 (path_of ["__Prototypes"; "P"; "z"; "t"])
    world_single
  = Returned InvalidPrim world_single.
Proof.
  apply (miss_without_instancing 2 2 (path_of ["__Prototypes"; "P"; "z"; "t"])
           world_single).
  - vm_compute. reflexivity.
  - intros anc rel d E Hrel. injection E as E.
    destruct rel as [|r1 [|r2 [|r3 [|r4 [|r5 rel]]]]]; [done|..];
      simplify_eq/=; intros Hd; vm_compute in Hd; by simplify_eq.
Defined.

(** C5, as the code has it.  When no prim exists at [path] and the
    ancestor search ends on an instance whose [GetMaster()] is invalid,
    the query posts the failed verify of [master]; it then aborts if
    failed verifies are configured as fatal, and otherwise returns the
    ordinary invalid sentinel. *)
Theorem dangling_prototype_outcome :
  forall fuel path w validAncestorPath validAncestor,
    GetPrimAtPath path w = Returned InvalidPrim w ->
    FindValidAncestor path w = Returned (validAncestorPath, validAncestor) w ->
    IsPrimPath validAncestorPath = true ->
    IsInstance validAncestor w = Returned true w ->
    GetMaster validAncestor w = Returned InvalidPrim w ->
    Resolve fuel path w =
      if fatal_verify w
      then FatalError (post_failed_verify "master" w)
      else Returned InvalidPrim (post_failed_verify "master" w).
Proof.
  intros fuel path w vap va [= Hp] Ha Hprim [= Hi] [= Hm].
  rewrite FindValidAncestor_run in Ha. injection Ha as Ha.
  destruct (find_valid_ancestor_ReplacePrefix _ _ _ _ Ha Hprim)
    as (rel & _ & Hr & _).
  rewrite Resolve_unfold. unfold hop. by rewrite Hp, Ha, Hprim, Hi, Hr, Hm.
Qed.

Lemma dangling_prototype_outcome_witness :
  Resolve 0 (path_of ["A"; "x"]) world_dangling
  = Returned InvalidPrim (post_failed_verify "master" world_dangling).
Proof.
  apply (dangling_prototype_outcome 0 (path_of ["A"; "x"]) world_dangling
           (path_of ["A"]) (PrimAt ["A"]));
    vm_compute; reflexivity.
Defined.

(** C5, as claimed, fails: [/A] is reported as an instance and its
    prototype does not resolve, yet the query for [/A/x] returns normally,
    and what it returns is the invalid sentinel, the very value an
    ordinary miss such as [/Z/x] returns. *)
Lemma dangling_prototype_returns_invalid :
  GetPrimAtPath (path_of ["A"; "x"]) world_dangling
    = Returned InvalidPrim world_dangling /\
  FindValidAncestor (path_of ["A"; "x"]) world_dangling
    = Returned (path_of ["A"], PrimAt ["A"]) world_dangling /\
  IsInstance (PrimAt ["A"]) world_dangling = Returned true world_dangling /\
  GetMaster (PrimAt ["A"]) world_dangling
    = Returned InvalidPrim world_dangling /\
  returned_prim (Resolve 1 (path_of ["A"; "x"]) world_dangling)
    = Some InvalidPrim /\
  returned_prim (Resolve 1 (path_of ["Z"; "x"]) world_dangling)
    = Some InvalidPrim.
Proof. vm_compute. by split_and!. Qed.

(** A valid result for a path that holds no prim came through the
    instancing branch: the ancestor search ended on an instance whose
    prototype resolves, and the result is that of the forwarded path. *)
Lemma Resolve_valid_forward fwd path w q w1 :
  stage_GetPrimAtPath (stage w) path = InvalidPrim ->
  Resolve fwd path w = Returned (PrimAt q) w1 ->
  w1 = w /\
  exists n a rel m da fwd',
    path = AbsPath (rel ++ n :: a) /\ rel <> [] /\
    find_valid_ancestor (stage w) path = (AbsPath (n :: a), PrimAt (n :: a)) /\
    stage w !! (n :: a) = Some da /\ is_instance da = true /\
    master_path da = Some m /\ is_Some (stage w !! m) /\
    (forall r1 r2, rel = r1 ++ r2 -> r1 <> [] -> r2 <> [] ->
                   stage w !! (r2 ++ n :: a) = None) /\
    fwd = S fwd' /\
    Resolve fwd' (AbsPath (rel ++ m)) w = Returned (PrimAt q) w.
Proof.
  intros Hp E. pose proof (Resolve_valid_world _ _ _ _ _ E) as ->.
  split; [done|]. rewrite Resolve_unfold in E. unfold hop in E.
  rewrite Hp in E.
  destruct (find_valid_ancestor (stage w) path) as [vap va] eqn:Ea.
  destruct (IsPrimPath vap) eqn:Hprim; [|done].
  destruct (IsPrimPath_inv _ Hprim) as (n & a & ->).
  destruct (find_valid_ancestor_prim _ _ _ _ _ Ea)
    as (-> & [da Hda] & rel & Hrel & -> & Hgap).
  rewrite ReplacePrefix_app in E.
  unfold stage_IsInstance, stage_GetMaster in E. rewrite Hda in E.
  destruct (is_instance da) eqn:Hi; [|done].
  destruct (master_path da) as [m|] eqn:Hm;
    [|unfold after_failed_verify in E; by destruct (fatal_verify w)].
  destruct (stage_GetPrimAtPath (stage w) (AbsPath m)) as [|m'] eqn:Em;
    [unfold after_failed_verify in E; by destruct (fatal_verify w)|].
  apply stage_GetPrimAtPath_valid in Em as [[= <-] Hsm].
  destruct fwd as [|fwd']; [done|].
  exists n, a, rel, m, da, fwd'. by split_and!.
Qed.

(** C8.  In the mutator, once the fast path has failed and the query has
    returned a valid prim, the ancestor found by the second walk is a prim
    path and that prim is an instance, so the verify of
    [validAncestor.IsInstance()] holds; over a whole run of the mutator
    that verify never fails: every diagnostic present at the end was
    already there or is the query's failed verify of [master]. *)
Theorem rewalk_finds_instance :
  (forall fwd path w q w1 validAncestorPath validAncestor w2,
      GetPrimAtPath path w = Returned InvalidPrim w ->
      Resolve fwd path w = Returned (PrimAt q) w1 ->
      FindValidAncestor path w1
        = Returned (validAncestorPath, validAncestor) w2 ->
      IsPrimPath validAncestorPath = true /\
      IsInstance validAncestor w2 = Returned true w2) /\
  (forall fwd fuel path w,
      match Uninstance fwd fuel path w with
      | Returned _ w' | FatalError w' =>
          forall e, e ∈ diagnostics w' ->
                    e ∈ diagnostics w \/ e = FailedVerify "master"
      | _ => True
      end).
Proof.
  split.
  - intros fwd path w q w1 vap va w2 [= Hp] E.
    destruct (Resolve_valid_forward _ _ _ _ _ Hp E)
      as (-> & n & a & rel & m & da & fwd' & -> & _ & Ha & Hda & Hi & _).
    rewrite FindValidAncestor_run, Ha. intros [= <- <- <-].
    split; [done|]. unfold IsInstance, stage_IsInstance. by rewrite Hda, Hi.
  - intros fwd fuel path. induction fuel as [|k IH]; intros w.
    all: rewrite Uninstance_unfold.
    all: destruct (stage_GetPrimAtPath (stage w) path) eqn:Hp; [|by auto].
    all: pose proof (Resolve_frame fwd path w) as Hf.
    all: destruct (Resolve fwd path w) as [[|q] w1|w1| |] eqn:E;
      simpl in Hf; try done.
    all: try (destruct Hf as [->|(_ & _ & ->)]; simpl; intros e He; auto;
              apply elem_of_cons in He as [->|]; by auto).
    all: try (destruct Hf as [_ ->]; simpl; intros e He;
              apply elem_of_cons in He as [->|]; by auto).
    all: destruct (Resolve_valid_forward _ _ _ _ _ Hp E)
      as (-> & n & a & rel & m & da & fwd' & -> & _ & Ha & Hda & Hi & _).
    all: rewrite Ha; cbn [IsPrimPath]; unfold stage_IsInstance;
      rewrite Hda, Hi.
    + done.
    + specialize (IH (after_SetInstanceable (PrimAt (n :: a)) false w)).
      by destruct (Uninstance fwd k _ _).
Qed.

Lemma rewalk_finds_instance_witness :
  IsPrimPath (path_of ["A"]) = true /\
  IsInstance (PrimAt ["A"]) world_nested = Returned true world_nested.
Proof.
  apply (proj1 rewalk_finds_instance 2 (path_of ["A"; "B"; "y"]) world_nested
           ["y"; "Q"; "__Prototypes"] world_nested (path_of ["A"])
           (PrimAt ["A"]) world_nested);
    vm_compute; reflexivity.
Defined.

(* ===================================================================== *)
(** ** What [SetInstanceable(false)] does to the stage *)
(* ===================================================================== *)

Lemma compose_locally_lookup m a st q :
  compose_locally m a st !! q =
    match strip_ancestor a q with
    | Some (n :: rel) =>
        match st !! ((n :: rel) ++ m) with
        | Some d => Some d
        | None => st !! q
        end
    | _ => st !! q
    end.
Proof.
  unfold compose_locally. revert q.
  apply (map_fold_weak_ind
    (fun (acc m0 : Stage) => forall q,
       acc !! q =
         match strip_ancestor a q with
         | Some (n :: rel) =>
             match m0 !! ((n :: rel) ++ m) with
             | Some d => Some d
             | None => st !! q
             end
         | _ => st !! q
         end)).
  - intros q. destruct (strip_ancestor a q) as [[|n rel]|]; try done.
  - intros i x m0 r Hi IH q.
    destruct (strip_ancestor m i) as [[|n rel]|] eqn:Ei.
    + rewrite IH. destruct (strip_ancestor a q) as [[|n' rel']|]; try done.
      rewrite lookup_insert_ne; [done|]. intros ->.
      rewrite strip_ancestor_app in Ei. done.
    + apply strip_ancestor_Some in Ei as ->.
      destruct (decide (q = (n :: rel) ++ a)) as [->|Hq].
      * rewrite lookup_insert_eq, strip_ancestor_app.
        by rewrite lookup_insert_eq.
      * rewrite lookup_insert_ne by done. rewrite IH.
        destruct (strip_ancestor a q) as [[|n' rel']|] eqn:Eq; try done.
        apply strip_ancestor_Some in Eq as ->.
        rewrite lookup_insert_ne; [done|]. intros E.
        apply app_inv_tail in E. congruence.
    + rewrite IH. destruct (strip_ancestor a q) as [[|n' rel']|]; try done.
      rewrite lookup_insert_ne; [done|]. intros ->.
      rewrite strip_ancestor_app in Ei. done.
Qed.

(** The stage below which nothing changes: the prim itself is plain
    afterwards, and only its strict descendants can differ. *)
Lemma SetInstanceable_false_self st a :
  is_Some (st !! a) ->
  stage_SetInstanceable st (PrimAt a) false !! a = Some plain_prim.
Proof.
  intros [d Hd]. unfold stage_SetInstanceable. rewrite Hd.
  by rewrite lookup_insert_eq.
Qed.

Lemma SetInstanceable_false_outside st a q :
  q <> a -> (forall n rel, q <> (n :: rel) ++ a) ->
  stage_SetInstanceable st (PrimAt a) false !! q = st !! q.
Proof.
  intros Hq Hout. unfold stage_SetInstanceable.
  destruct (st !! a) as [d|] eqn:Hd; [|done].
  rewrite lookup_insert_ne by done.
  destruct (stage_GetMaster st (PrimAt a)) as [|m]; [done|].
  destruct (is_instance d); [|done].
  rewrite compose_locally_lookup.
  destruct (strip_ancestor a q) as [[|n rel]|] eqn:E; try done.
  apply strip_ancestor_Some in E. by destruct (Hout n rel).
Qed.


Lemma SetInstanceable_false_keeps st a q :
  is_Some (st !! q) ->
  is_Some (stage_SetInstanceable st (PrimAt a) false !! q).
Proof.
  intros Hq. unfold stage_SetInstanceable.
  destruct (st !! a) as [d|] eqn:Hd; [|done].
  destruct (decide (q = a)) as [->|Hne]; [by rewrite lookup_insert_eq|].
  rewrite lookup_insert_ne by done.
  destruct (stage_GetMaster st (PrimAt a)) as [|m]; [done|].
  destruct (is_instance d); [|done].
  rewrite compose_locally_lookup.
  destruct (strip_ancestor a q) as [[|n rel]|]; try done.
  by destruct (st !! ((n :: rel) ++ m)).
Qed.

(* ===================================================================== *)
(** ** Properties of the uninstancing mutator *)
(* ===================================================================== *)

(** A valid result of the mutator is always produced by the fast path of
    its last activation: the prim exists at [path] in the final stage. *)
Lemma Uninstance_valid_exists fwd fuel path w q w' :
  Uninstance fwd fuel path w = Returned (PrimAt q) w' ->
  stage_GetPrimAtPath (stage w') path = PrimAt q.
Proof.
  revert w. induction fuel as [|k IH]; intros w; rewrite Uninstance_unfold.
  all: destruct (stage_GetPrimAtPath (stage w) path) eqn:Hp;
    [|by intros [= <- <-]].
  all: destruct (Resolve fwd path w) as [[|q1] w1|w1| |] eqn:E; try done.
  all: destruct (Resolve_valid_forward _ _ _ _ _ Hp E)
    as (-> & n & a & rel & m & da & fwd' & -> & _ & Ha & Hda & Hi & _).
  all: rewrite Ha; cbn [IsPrimPath]; unfold stage_IsInstance;
    rewrite Hda, Hi.
  - done.
  - apply IH.
Qed.

(** The ancestor search ends at or below every existing strict ancestor. *)
Lemma nearest_at_or_below (st : Stage) (rel rel2 a a2 : names) :
  rel ++ a = rel2 ++ a2 -> rel <> [] ->
  is_Some (st !! a) ->
  (forall r1 r2, rel2 = r1 ++ r2 -> r1 <> [] -> r2 <> [] ->
                 st !! (r2 ++ a2) = None) ->
  exists k, a2 = k ++ a /\ rel = rel2 ++ k.
Proof.
  intros E Hrel [d Hd] Hgap.
  apply app_eq_inv in E as [(k & E1 & E2)|(k & E1 & E2)].
  - by exists k.
  - destruct k as [|x k].
    + exists []. simpl in E2. rewrite app_nil_r in E1. subst.
      split; [done|by rewrite app_nil_r].
    + subst a. rewrite (Hgap rel (x :: k)) in Hd; done.
Qed.

(** A plain strict ancestor of [path] stays a plain prim through a run of
    the mutator on [path]. *)
Lemma Uninstance_keeps_plain fwd fuel rel a w r w' :
  rel <> [] ->
  (exists d, stage w !! a = Some d /\ is_instance d = false) ->
  Uninstance fwd fuel (AbsPath (rel ++ a)) w = Returned r w' ->
  exists d', stage w' !! a = Some d' /\ is_instance d' = false.
Proof.
  intros Hrel. revert w.
  induction fuel as [|k IH]; intros w Hplain; rewrite Uninstance_unfold.
  all: destruct (stage_GetPrimAtPath (stage w) (AbsPath (rel ++ a))) eqn:Hp;
    [|by intros [= _ <-]].
  all: destruct (Resolve fwd _ w) as [[|q1] w1|w1| |] eqn:E; try done.
  all: try (intros [= _ <-];
            destruct (Resolve_returned_stage _ _ _ _ _ E) as (-> & _); done).
  all: destruct (Resolve_valid_forward _ _ _ _ _ Hp E)
    as (-> & n & a2 & rel2 & m & da & fwd' & [= Epath] & _ & Ha & Hda & Hi
        & _ & _ & Hgap & _).
  all: rewrite Ha; cbn [IsPrimPath]; unfold stage_IsInstance;
    rewrite Hda, Hi.
  { done. }
  apply IH. destruct Hplain as (d & Hd & Hdi).
  destruct (nearest_at_or_below (stage w) rel rel2 a (n :: a2))
    as (k' & Ek & _); [done..|by rewrite Hd|done|].
  exists d. split; [|done]. cbn [after_SetInstanceable stage].
  rewrite SetInstanceable_false_outside; [done|..].
  - intros ->. congruence.
  - intros n' rel' ->. apply (f_equal length) in Ek.
    rewrite !length_app in Ek. simpl in Ek. lia.
Qed.

(** C7.  Idempotence: after a call of the mutator has returned a valid
    prim, a second call on the resulting world returns the same prim
    through the fast path (the initial [GetPrimAtPath] finds it) and
    leaves the world, record of [SetInstanceable] calls included, as it
    is. *)
Theorem Uninstance_idempotent :
  forall fwd fuel path w q w',
    Uninstance fwd fuel path w = Returned (PrimAt q) w' ->
    forall fwd' fuel',
      GetPrimAtPath path w' = Returned (PrimAt q) w' /\
      Uninstance fwd' fuel' path w' = Returned (PrimAt q) w'.
Proof.
  intros fwd fuel path w q w' E fwd' fuel'.
  apply Uninstance_valid_exists in E.
  split; [unfold GetPrimAtPath; by rewrite E|].
  rewrite Uninstance_unfold. by rewrite E.
Qed.

Lemma Uninstance_idempotent_witness :
  GetPrimAtPath (path_of ["A"; "B"; "y"]) world_nested_uninstanced
    = Returned (PrimAt ["y"; "B"; "A"]) world_nested_uninstanced /\
  Uninstance 0 0 (path_of ["A"; "B"; "y"]) world_nested_uninstanced
    = Returned (PrimAt ["y"; "B"; "A"]) world_nested_uninstanced.
Proof.
  apply (Uninstance_idempotent 2 2 (path_of ["A"; "B"; "y"]) world_nested
           ["y"; "B"; "A"] world_nested_uninstanced).
  vm_compute. reflexivity.
Defined.

(** C2.  Uninstancing convergence: when the mutator returns a valid prim,
    a direct [GetPrimAtPath(path)] on the resulting stage returns that
    prim, which is the prim at [path] itself; and every prim whose
    instanceable flag the call cleared is a strict ancestor of [path] that
    is no longer reported as an instance.  The call issues nothing but
    [SetInstanceable(false)]. *)
Theorem Uninstance_converges :
  forall fwd fuel path w q w',
    Uninstance fwd fuel path w = Returned (PrimAt q) w' ->
    GetPrimAtPath path w' = Returned (PrimAt q) w' /\
    path = AbsPath q /\
    exists cleared,
      set_instanceable_calls w' = cleared ++ set_instanceable_calls w /\
      forall a b, (a, b) ∈ cleared ->
        b = false /\
        (exists rel, rel <> [] /\ q = rel ++ a) /\
        IsInstance (PrimAt a) w' = Returned false w'.
Proof.
  intros fwd fuel path w q w' E.
  pose proof (Uninstance_valid_exists _ _ _ _ _ _ E) as Hq.
  split; [unfold GetPrimAtPath; by rewrite Hq|].
  apply stage_GetPrimAtPath_valid in Hq as [-> _]. split; [done|].
  revert w E. induction fuel as [|k IH]; intros w; rewrite Uninstance_unfold.
  all: destruct (stage_GetPrimAtPath (stage w) (AbsPath q)) eqn:Hp;
    [|intros [= _ <-]; exists []; split; [done|by intros ?? ?%elem_of_nil]].
  all: destruct (Resolve fwd _ w) as [[|q1] w1|w1| |] eqn:E; try done.
  all: destruct (Resolve_valid_forward _ _ _ _ _ Hp E)
    as (-> & n & a & rel & m & da & fwd' & [= ->] & Hrel & Ha & Hda & Hi & _).
  all: rewrite Ha; cbn [IsPrimPath]; unfold stage_IsInstance;
    rewrite Hda, Hi.
  { done. }
  intros E'. destruct (IH _ E') as (cleared & Hcalls & Hall).
  exists (cleared ++ [(n :: a, false)]). split.
  { rewrite Hcalls. cbn [after_SetInstanceable set_instanceable_calls].
    by rewrite <- app_assoc. }
  intros a' b [Hin|Hin%list_elem_of_singleton]%elem_of_app; [by apply Hall|].
  injection Hin as -> ->. split_and!; [done|by exists rel|].
  assert (exists d, stage (after_SetInstanceable (PrimAt (n :: a)) false w)
                       !! (n :: a) = Some d /\ is_instance d = false)
    as Hplain.
  { exists plain_prim. split; [|done]. cbn [after_SetInstanceable stage].
    apply SetInstanceable_false_self. by rewrite Hda. }
  destruct (Uninstance_keeps_plain _ _ _ _ _ _ _ Hrel Hplain E')
    as (d' & Hd' & Hdi).
  unfold IsInstance, stage_IsInstance. by rewrite Hd', Hdi.
Qed.

Lemma Uninstance_converges_witness :
  GetPrimAtPath (path_of ["A"; "B"; "y"]) world_nested_uninstanced
    = Returned (PrimAt ["y"; "B"; "A"]) world_nested_uninstanced /\
  path_of ["A"; "B"; "y"] = AbsPath ["y"; "B"; "A"] /\
  exists cleared,
    set_instanceable_calls world_nested_uninstanced
      = cleared ++ set_instanceable_calls world_nested /\
    forall a b, (a, b) ∈ cleared ->
      b = false /\
      (exists rel, rel <> [] /\ ["y"; "B"; "A"] = rel ++ a) /\
      IsInstance (PrimAt a) world_nested_uninstanced
        = Returned false world_nested_uninstanced.
Proof.
  apply (Uninstance_converges 2 2 (path_of ["A"; "B"; "y"]) world_nested
           ["y"; "B"; "A"] world_nested_uninstanced).
  vm_compute. reflexivity.
Defined.

(* ===================================================================== *)
(** ** Well-nested stages *)
(* ===================================================================== *)















(** The nesting hypothesis cannot be dropped: on a stage whose prototype
    relation is cyclic the query recurses without end. *)
Remark Resolve_cyclic_no_fuel_suffices :
  forall fuel,
    Resolve fuel (path_of ["A"; "x"]) (world_of scene_cyclic false) = OutOfFuel.
Proof.
  induction fuel as [|k IH]; rewrite Resolve_unfold.
  all: replace (hop (stage (world_of scene_cyclic false)) (path_of ["A"; "x"]))
         with (HopForward (path_of ["A"; "x"])) by (vm_compute; reflexivity).
  - done.
  - exact IH.
Qed.

(* ===================================================================== *)
(** ** The nested scene, run *)
(* ===================================================================== *)

(** Nested forwarding: [/A/B/y] is forwarded through both prototypes. *)
Example nested_forwarding :
  Resolve 2 (path_of ["A"; "B"; "y"]) world_nested
  = Returned (PrimAt ["y"; "Q"; "__Prototypes"]) world_nested.
Proof. vm_compute. reflexivity. Qed.

(** Multi-layer uninstancing: two flags are cleared, the outer instance
    first, and the leaf is then found directly. *)
Example nested_uninstancing :
  returned_prim (Uninstance 2 2 (path_of ["A"; "B"; "y"]) world_nested)
    = Some (PrimAt ["y"; "B"; "A"]) /\
  set_instanceable_calls world_nested_uninstanced
    = [(["B"; "A"], false); (["A"], false)] /\
  stage_GetPrimAtPath (stage world_nested_uninstanced)
    (path_of ["A"; "B"; "y"]) = PrimAt ["y"; "B"; "A"].
Proof. vm_compute. by split_and!. Qed.

(* ===================================================================== *)
(** ** The up-axis heuristic *)
(* ===================================================================== *)

Lemma zUp_loop_true layer prims has :
  (zUp_loop layer prims has).1 = true <->
  (has = true \/ exists c, c ∈ prims /\ child_zUp c = VtBool true) /\
  (forall c, c ∈ prims -> child_zUp c <> VtBool false).
Proof.
  revert has. induction prims as [|p rest IH]; intros has; simpl.
  - split.
    + intros ->. split; [by left|]. by intros c ?%elem_of_nil.
    + intros [[?|(c & ?%elem_of_nil & _)] _]; done.
  - destruct (child_zUp p) as [|[|]|held] eqn:Ep.
    + rewrite IH. split; intros [Hex Hall]; split.
      * destruct Hex as [?|(c & ? & ?)]; [by left|right].
        exists c. split; [by apply elem_of_cons; right|done].
      * intros c [->|?]%elem_of_cons; [by rewrite Ep|by apply Hall].
      * destruct Hex as [?|(c & [->|?]%elem_of_cons & Hc)]; [by left|..].
        -- by rewrite Ep in Hc.
        -- right. by exists c.
      * intros c ?. apply Hall. by apply elem_of_cons; right.
    + rewrite IH. split; intros [Hex Hall]; split.
      * right. exists p. split; [by apply elem_of_cons; left|done].
      * intros c [->|?]%elem_of_cons; [by rewrite Ep|by apply Hall].
      * by left.
      * intros c ?. apply Hall. by apply elem_of_cons; right.
    + simpl. split; [done|]. intros [_ Hall].
      destruct (Hall p); [by apply elem_of_cons; left|done].
    + destruct (zUp_loop layer rest has) as [r ws] eqn:E. simpl.
      specialize (IH has). rewrite E in IH. simpl in IH. rewrite IH.
      split; intros [Hex Hall]; split.
      * destruct Hex as [?|(c & ? & ?)]; [by left|right].
        exists c. split; [by apply elem_of_cons; right|done].
      * intros c [->|?]%elem_of_cons; [by rewrite Ep|by apply Hall].
      * destruct Hex as [?|(c & [->|?]%elem_of_cons & Hc)]; [by left|..].
        -- by rewrite Ep in Hc.
        -- right. by exists c.
      * intros c ?. apply Hall. by apply elem_of_cons; right.
Qed.

Lemma elem_of_GetFilteredChildren st c :
  c ∈ GetFilteredChildren st <->
  c ∈ pseudo_root_children st /\ child_defined c = true /\
  child_abstract c = false.
Proof.
  unfold GetFilteredChildren. rewrite !list_elem_of_In, filter_In.
  unfold considered. rewrite andb_true_iff, negb_true_iff. tauto.
Qed.

(** X1.  The cameras are reported z-up exactly when the stage is not
    null, some defined, non-abstract child of the pseudo-root holds the
    bool [true] under [zUp], and no such child holds the bool [false]:
    a single y-up prim overrides every z-up prim, wherever it stands. *)
Theorem cameras_zup_iff :
  forall stage,
    (UsdUtilsGetCamerasAreZup stage).1 = true <->
    exists st, stage = Some st /\
      (exists c, c ∈ pseudo_root_children st /\ child_defined c = true /\
                 child_abstract c = false /\ child_zUp c = VtBool true) /\
      (forall c, c ∈ pseudo_root_children st -> child_defined c = true ->
                 child_abstract c = false -> child_zUp c <> VtBool false).
Proof.
  intros [st|]; simpl.
  - rewrite zUp_loop_true. split.
    + intros [[?|(c & Hc & Hz)] Hall]; [done|].
      exists st. split; [done|]. split.
      * apply elem_of_GetFilteredChildren in Hc as (? & ? & ?). by exists c.
      * intros c' ? ? ?. apply Hall. by apply elem_of_GetFilteredChildren.
    + intros (st' & [= <-] & (c & ? & ? & ? & ?) & Hall). split.
      * right. exists c. split; [by apply elem_of_GetFilteredChildren|done].
      * intros c' (? & ? & ?)%elem_of_GetFilteredChildren. by apply Hall.
  - split; [done|]. by intros (st & ? & _).
Qed.

Lemma cameras_zup_iff_witness :
  (UsdUtilsGetCamerasAreZup (Some stage_cameras)).1 = true.
Proof.
  apply (proj2 (cameras_zup_iff (Some stage_cameras))).
  exists stage_cameras. split; [reflexivity|]. split.
  - exists (mkRootChild "camA" true false (VtBool true)).
    split_and!; [|reflexivity..]. apply elem_of_cons. by left.
  - intros c Hc Hd Ha. vm_compute in Hc.
    repeat (apply elem_of_cons in Hc as [->|Hc]; [done|]).
    by apply elem_of_nil in Hc.
Defined.

(** X2.  The answer does not depend on the order of the pseudo-root's
    children nor on the root layer: two stages whose children are
    permutations of each other get the same answer, even though the loop
    returns early at the first y-up prim. *)
Theorem cameras_zup_order_independent :
  forall layer1 layer2 children1 children2,
    children1 ≡ₚ children2 ->
    (UsdUtilsGetCamerasAreZup (Some (mkCameraStage layer1 children1))).1
    = (UsdUtilsGetCamerasAreZup (Some (mkCameraStage layer2 children2))).1.
Proof.
  intros layer1 layer2 l1 l2 Hperm. apply Bool.eq_iff_eq_true. simpl.
  rewrite !zUp_loop_true.
  assert (forall c, c ∈ GetFilteredChildren (mkCameraStage layer1 l1) <->
                    c ∈ GetFilteredChildren (mkCameraStage layer2 l2)) as Hin.
  { intros c. rewrite !elem_of_GetFilteredChildren. simpl. by rewrite Hperm. }
  split; intros [[?|(c & Hc & ?)] Hall]; try done.
  all: split; [right; exists c; split; [by apply Hin|done]|].
  all: intros c' Hc'; apply Hall; by apply Hin.
Qed.

Lemma cameras_zup_order_independent_witness :
  (UsdUtilsGetCamerasAreZup
     (Some (mkCameraStage "a.usd"
        [ mkRootChild "yUp" true false (VtBool false);
          mkRootChild "zUp" true false (VtBool true) ]))).1
  = (UsdUtilsGetCamerasAreZup
       (Some (mkCameraStage "b.usd"
          [ mkRootChild "zUp" true false (VtBool true);
            mkRootChild "yUp" true false (VtBool false) ]))).1.
Proof.
  apply (cameras_zup_order_independent "a.usd" "b.usd").
  apply Permutation_swap.
Defined.

Lemma zUp_loop_warnings layer prims has :
  (zUp_loop layer prims has).2
    = replicate (length (zUp_loop layer prims has).2) (NonBooleanZup layer) /\
  length (zUp_loop layer prims has).2 <= length (List.filter holds_other prims) /\
  ((forall c, c ∈ prims -> child_zUp c <> VtBool false) ->
   length (zUp_loop layer prims has).2 = length (List.filter holds_other prims)).
Proof.
  revert has. induction prims as [|p rest IH]; intros has; simpl.
  { by split_and!. }
  assert (holds_other p
          = match child_zUp p with VtOther _ => true | _ => false end) as Hh
    by reflexivity.
  rewrite Hh. clear Hh.
  destruct (child_zUp p) as [|[|]|held] eqn:Ep; simpl.
  - destruct (IH has) as (? & ? & Heq). split_and!; [done..|].
    intros Hall. apply Heq. intros c ?. apply Hall. by apply elem_of_cons; right.
  - destruct (IH true) as (? & ? & Heq). split_and!; [done..|].
    intros Hall. apply Heq. intros c ?. apply Hall. by apply elem_of_cons; right.
  - split_and!; [done|lia|]. intros Hall.
    destruct (Hall p); [by apply elem_of_cons; left|done].
  - destruct (IH has) as (Hrep & ? & Heq).
    destruct (zUp_loop layer rest has) as [r ws]. simpl in *.
    split_and!; [by f_equal|lia|].
    intros Hall. f_equal. apply Heq. intros c ?. apply Hall.
    by apply elem_of_cons; right.
Qed.

(** X3.  Every warning the up-axis query posts names the root layer;
    there is at most one per defined, non-abstract child holding a
    non-bool [zUp] value, and exactly one per such child when no defined,
    non-abstract child is y-up.  A null stage posts none. *)
Theorem cameras_zup_warnings :
  UsdUtilsGetCamerasAreZup None = (false, []) /\
  forall st,
    let ws := (UsdUtilsGetCamerasAreZup (Some st)).2 in
    let others := List.filter holds_other (GetFilteredChildren st) in
    ws = replicate (length ws) (NonBooleanZup (root_layer_identifier st)) /\
    length ws <= length others /\
    ((forall c, c ∈ pseudo_root_children st -> child_defined c = true ->
                child_abstract c = false -> child_zUp c <> VtBool false) ->
     length ws = length others).
Proof.
  split; [done|]. intros st. simpl.
  destruct (zUp_loop_warnings (root_layer_identifier st)
              (GetFilteredChildren st) false) as (? & ? & Heq).
  split_and!; [done..|]. intros Hall. apply Heq.
  intros c (? & ? & ?)%elem_of_GetFilteredChildren. by apply Hall.
Qed.

Lemma cameras_zup_warnings_witness :
  length (UsdUtilsGetCamerasAreZup (Some stage_cameras)).2
  = length (List.filter holds_other (GetFilteredChildren stage_cameras)).
Proof.
  apply (proj2 cameras_zup_warnings stage_cameras).
  intros c Hc Hd Ha. vm_compute in Hc.
  repeat (apply elem_of_cons in Hc as [->|Hc]; [done|]).
  by apply elem_of_nil in Hc.
Defined.

(* ===================================================================== *)
(** ** The alpha attribute name *)
(* ===================================================================== *)

Lemma string_length_append (a b : string) :
  String.length (String.append a b) = String.length a + String.length b.
Proof. induction a as [|c a IH]; simpl; [done|by rewrite IH]. Qed.

Lemma append_inj_r (a b s : string) :
  String.append a s = String.append b s -> a = b.
Proof.
  intros H.
  assert (String.length a = String.length b) as Hlen.
  { apply (f_equal String.length) in H.
    rewrite !string_length_append in H. lia. }
  revert b H Hlen. induction a as [|c a IH]; intros [|c' b]; simpl; try done.
  intros [= -> H] [= Hlen]. f_equal. by apply IH.
Qed.

(** X4.  Distinct colour attribute names get distinct alpha attribute
    names, and the alpha name is the colour name followed by exactly the
    two characters [_A], so it is never empty and never the colour name
    itself. *)
Theorem alpha_name_injective :
  (forall color1 color2,
      UsdUtilsGetAlphaAttributeNameForColor color1
      = UsdUtilsGetAlphaAttributeNameForColor color2 -> color1 = color2) /\
  (forall color,
      String.length (UsdUtilsGetAlphaAttributeNameForColor color)
      = String.length color + 2 /\
      UsdUtilsGetAlphaAttributeNameForColor color <> color /\
      String.substring (String.length color) 2
        (UsdUtilsGetAlphaAttributeNameForColor color) = "_A").
Proof.
  unfold UsdUtilsGetAlphaAttributeNameForColor. split.
  - intros a b. apply append_inj_r.
  - intros color. split_and!.
    + by rewrite string_length_append.
    + intros E. apply (f_equal String.length) in E.
      rewrite string_length_append in E. simpl in E. lia.
    + induction color as [|c color IH]; [done|]. simpl. exact IH.
Qed.

Lemma alpha_name_injective_witness : "displayColor" = "displayColor".
Proof.
  apply (proj1 alpha_name_injective "displayColor" "displayColor").
  reflexivity.
Defined.

(* ===================================================================== *)
(** ** The model name of a root layer *)
(* ===================================================================== *)

Lemma IsEmpty_true s : IsEmpty s = true <-> s = "".
Proof. by destruct s. Qed.

Lemma layer_has_root_prim_true rootLayer name :
  layer_has_root_prim rootLayer name = true <->
  exists p, p ∈ GetRootPrims rootLayer /\ GetNameToken p = name.
Proof.
  unfold layer_has_root_prim. rewrite existsb_exists. split.
  - intros (p & Hp & E). exists p. split; [by apply list_elem_of_In|].
    by apply bool_decide_eq_true in E.
  - intros (p & Hp & E). exists p. split; [by apply list_elem_of_In|].
    by apply bool_decide_eq_true.
Qed.

Lemma first_non_class_Some prims name :
  first_non_class prims = Some name <->
  exists classes p rest,
    prims = classes ++ p :: rest /\
    Forall (fun c => GetSpecifier c = SdfSpecifierClass) classes /\
    GetSpecifier p <> SdfSpecifierClass /\ GetNameToken p = name.
Proof.
  induction prims as [|q prims IH]; simpl.
  - split; [done|]. intros (classes & ? & ? & E & _). by destruct classes.
  - case_decide as Hq.
    + split.
      * intros [= <-]. exists [], q, prims. by split_and!.
      * intros ([|c classes] & p & rest & E & Hall & Hp & <-);
          simplify_eq/=; [done|].
        apply Forall_cons in Hall as [Hc _]. by destruct Hq.
    + rewrite IH. split.
      * intros (classes & p & rest & -> & Hall & Hp & <-).
        exists (q :: classes), p, rest. split_and!; try done.
        apply Forall_cons. split; [|done].
        by destruct (decide (GetSpecifier q = SdfSpecifierClass)).
      * intros ([|c classes] & p & rest & E & Hall & Hp & <-).
        -- injection E as -> ->. contradiction.
        -- injection E as -> ->. apply Forall_cons in Hall as [_ Hall].
           by exists classes, p, rest.
Qed.

Lemma first_non_class_None prims :
  first_non_class prims = None <->
  Forall (fun c => GetSpecifier c = SdfSpecifierClass) prims.
Proof.
  induction prims as [|q prims IH]; simpl; [done|].
  case_decide as Hq.
  - split; [done|]. intros [? _]%Forall_cons. by destruct Hq.
  - rewrite IH. split.
    + intros ?. apply Forall_cons. split; [|done].
      by destruct (decide (GetSpecifier q = SdfSpecifierClass)).
    + by intros [_ ?]%Forall_cons.
Qed.

(** X5.  Where the model name comes from.  A set default prim is
    returned as it is.  Otherwise the result is the name of a root prim of
    the layer, or else it is the file stem (the base name up to its first
    dot) and every root prim of the layer is a class. *)
Theorem model_name_provenance :
  forall TfGetBaseName rootLayer,
    let name := UsdUtilsGetModelNameFromRootLayer TfGetBaseName rootLayer in
    (GetDefaultPrim rootLayer <> "" -> name = GetDefaultPrim rootLayer) /\
    (GetDefaultPrim rootLayer = "" ->
     (exists p, p ∈ GetRootPrims rootLayer /\ GetNameToken p = name) \/
     (name = before_first_dot (TfGetBaseName (GetRealPath rootLayer)) /\
      Forall (fun c => GetSpecifier c = SdfSpecifierClass)
        (GetRootPrims rootLayer))).
Proof.
  intros base layer. unfold UsdUtilsGetModelNameFromRootLayer. simpl. split.
  - intros Hd. destruct (IsEmpty (GetDefaultPrim layer)) eqn:E; [|done].
    by apply IsEmpty_true in E.
  - intros ->. simpl.
    destruct (negb _ && layer_has_root_prim layer _) eqn:E.
    + apply andb_prop in E as [_ E]. left.
      by apply layer_has_root_prim_true in E.
    + destruct (first_non_class (GetRootPrims layer)) as [n|] eqn:Ef.
      * left. apply first_non_class_Some in Ef
          as (classes & p & rest & El & _ & _ & <-).
        exists p. split; [|done]. rewrite El. apply elem_of_app. right.
        by apply elem_of_cons; left.
      * right. by apply first_non_class_None in Ef.
Qed.

Lemma model_name_provenance_witness :
  exists p, p ∈ GetRootPrims layer_chair /\
    GetNameToken p
    = UsdUtilsGetModelNameFromRootLayer after_last_slash layer_chair.
Proof.
  destruct (proj2 (model_name_provenance after_last_slash layer_chair)
              eq_refl) as [H|[_ H]].
  - exact H.
  - exfalso. vm_compute in H. apply Forall_cons in H as [_ H].
    apply Forall_cons in H as [H _]. discriminate H.
Defined.

(** X6.  With no default prim, a non-empty file stem that names a root
    prim of the layer is the model name, whatever that prim's specifier
    (a class included) and whichever root prims come before it. *)
Theorem model_name_from_file_stem :
  forall TfGetBaseName rootLayer p,
    GetDefaultPrim rootLayer = "" ->
    p ∈ GetRootPrims rootLayer ->
    GetNameToken p = before_first_dot (TfGetBaseName (GetRealPath rootLayer)) ->
    GetNameToken p <> "" ->
    UsdUtilsGetModelNameFromRootLayer TfGetBaseName rootLayer = GetNameToken p.
Proof.
  intros base layer p Hd Hp Hname Hne.
  unfold UsdUtilsGetModelNameFromRootLayer. rewrite Hd. simpl.
  rewrite <- Hname.
  assert (IsEmpty (GetNameToken p) = false) as ->.
  { destruct (IsEmpty _) eqn:E; [|done]. by apply IsEmpty_true in E. }
  assert (layer_has_root_prim layer (GetNameToken p) = true) as ->; [|done].
  apply layer_has_root_prim_true. by exists p.
Qed.

Lemma model_name_from_file_stem_witness :
  UsdUtilsGetModelNameFromRootLayer after_last_slash layer_chair = "chair".
Proof.
  apply (model_name_from_file_stem after_last_slash layer_chair
           (mkPrimSpec "chair" SdfSpecifierClass)).
  - reflexivity.
  - vm_compute. do 2 (apply elem_of_cons; right). by apply elem_of_cons; left.
  - vm_compute. reflexivity.
  - done.
Defined.

(** X7.  With no default prim, and a file stem that is empty or names no
    root prim, the model name is the name of the first root prim that is
    not a class: the classes before it are skipped. *)
Theorem model_name_first_non_class :
  forall TfGetBaseName rootLayer classes p rest,
    GetDefaultPrim rootLayer = "" ->
    (before_first_dot (TfGetBaseName (GetRealPath rootLayer)) = "" \/
     forall q, q ∈ GetRootPrims rootLayer ->
       GetNameToken q
       <> before_first_dot (TfGetBaseName (GetRealPath rootLayer))) ->
    GetRootPrims rootLayer = classes ++ p :: rest ->
    Forall (fun c => GetSpecifier c = SdfSpecifierClass) classes ->
    GetSpecifier p <> SdfSpecifierClass ->
    UsdUtilsGetModelNameFromRootLayer TfGetBaseName rootLayer = GetNameToken p.
Proof.
  intros base layer classes p rest Hd Hstem Hl Hall Hp.
  unfold UsdUtilsGetModelNameFromRootLayer. rewrite Hd. simpl.
  assert (negb (IsEmpty (before_first_dot (base (GetRealPath layer)))) &&
          layer_has_root_prim layer
            (before_first_dot (base (GetRealPath layer))) = false) as ->.
  { apply andb_false_iff. destruct Hstem as [->|Hno]; [by left|right].
    apply not_true_is_false. intros (q & Hq & E)%layer_has_root_prim_true.
    by apply (Hno q). }
  assert (first_non_class (GetRootPrims layer) = Some (GetNameToken p)) as ->;
    [|done].
  apply first_non_class_Some. by exists classes, p, rest.
Qed.

Lemma model_name_first_non_class_witness :
  UsdUtilsGetModelNameFromRootLayer (fun _ => "table.usd") layer_chair
  = "materials".
Proof.
  apply (model_name_first_non_class (fun _ => "table.usd") layer_chair
           [mkPrimSpec "_class_Chair" SdfSpecifierClass]
           (mkPrimSpec "materials" SdfSpecifierDef)
           [mkPrimSpec "chair" SdfSpecifierClass]).
  - reflexivity.
  - right. intros q Hq. vm_compute in Hq.
    repeat (apply elem_of_cons in Hq as [->|Hq]; [done|]).
    by apply elem_of_nil in Hq.
  - reflexivity.
  - by apply Forall_cons.
  - done.
Defined.

(* ===================================================================== *)
(** ** The registered variant sets *)
(* ===================================================================== *)

Example regVarSets_example :
  _regVarSets plugins_example =
    mkRegistry
      [ mkRegisteredVariantSet "modelingVariant" Always;
        mkRegisteredVariantSet "standin" Never ]
      [ PipelineNotDictionary "broken";
        VariantSetNotValid "studio" "lod";
        VariantSetNotDictionary "studio" "shadingVariant" ].
Proof. reflexivity. Qed.

Lemma registry_append_empty_r r : registry_append r (mkRegistry [] []) = r.
Proof. destruct r. unfold registry_append. simpl. by rewrite !app_nil_r. Qed.

Lemma registry_append_insert r1 r2 v :
  registry_append r1 (registry_insert r2 v)
  = registry_insert (registry_append r1 r2) v.
Proof. unfold registry_append, registry_insert. simpl. by rewrite app_assoc. Qed.

Lemma registry_append_error r1 r2 e :
  registry_append r1 (TF_CODING_ERROR r2 e)
  = TF_CODING_ERROR (registry_append r1 r2) e.
Proof. unfold registry_append, TF_CODING_ERROR. simpl. by rewrite app_assoc. Qed.

(** Both loops only ever add to what is already there. *)
Lemma variant_sets_loop_append plug entries r0 r :
  variant_sets_loop plug entries (registry_append r0 r)
  = registry_append r0 (variant_sets_loop plug entries r).
Proof.
  revert r. induction entries as [|[n v] rest IH]; intros r; simpl; [done|].
  destruct v; rewrite <- ?registry_append_error; try apply IH.
  repeat case_decide;
    rewrite <- ?registry_append_insert, <- ?registry_append_error; apply IH.
Qed.

Lemma plugins_loop_append plugs r0 r :
  plugins_loop plugs (registry_append r0 r)
  = registry_append r0 (plugins_loop plugs r).
Proof.
  revert r. induction plugs as [|plug rest IH]; intros r; simpl; [done|].
  destruct (TfMapLookup (GetMetadata plug) "UsdUtilsPipeline") as [v|];
    [|apply IH].
  destruct v as [| |dict|]; rewrite <- ?registry_append_error; try apply IH.
  destruct (TfMapLookup dict "RegisteredVariantSets") as [v|]; [|apply IH].
  destruct v as [| |sets|]; rewrite <- ?registry_append_error; try apply IH.
  rewrite variant_sets_loop_append. apply IH.
Qed.

Lemma plugins_loop_from plugs r :
  plugins_loop plugs r = registry_append r (_regVarSets plugs).
Proof.
  unfold _regVarSets. rewrite <- plugins_loop_append.
  by rewrite registry_append_empty_r.
Qed.



Lemma regVarSets_cons plug rest :
  _regVarSets (plug :: rest)
  = registry_append (_regVarSets [plug]) (_regVarSets rest).
Proof.
  unfold _regVarSets at 1 2. simpl.
  destruct (TfMapLookup (GetMetadata plug) "UsdUtilsPipeline") as [v|];
    [|apply plugins_loop_from].
  destruct v as [| |dict|]; try apply plugins_loop_from.
  destruct (TfMapLookup dict "RegisteredVariantSets") as [v|];
    [|apply plugins_loop_from].
  destruct v as [| |sets|]; apply plugins_loop_from.
Qed.




(** X9.  Plugins are processed independently and in order: the inserts
    and the coding errors of a list of plugins are those of its first part
    followed by those of its second part, so metadata of one plugin,
    malformed or not, never changes what another plugin contributes; and
    a plugin without a [UsdUtilsPipeline] entry contributes nothing. *)
Theorem regVarSets_app :
  (forall plugs1 plugs2,
      _regVarSets (plugs1 ++ plugs2)
      = registry_append (_regVarSets plugs1) (_regVarSets plugs2)) /\
  (forall plug,
      TfMapLookup (GetMetadata plug) "UsdUtilsPipeline" = None ->
      _regVarSets [plug] = mkRegistry [] []).
Proof.
  split.
  - intros plugs1 plugs2. induction plugs1 as [|plug rest IH].
    + simpl. unfold registry_append. simpl. by destruct (_regVarSets plugs2).
    + simpl. rewrite regVarSets_cons, IH, (regVarSets_cons plug rest).
      unfold registry_append. simpl. by rewrite !app_assoc.
  - intros plug H. unfold _regVarSets. simpl. by rewrite H.
Qed.

Lemma regVarSets_app_witness :
  _regVarSets [mkPlugin "plain" [ ("Info", JsObject []) ]] = mkRegistry [] [].
Proof.
  apply (proj2 regVarSets_app (mkPlugin "plain" [ ("Info", JsObject []) ])).
  reflexivity.
Defined.



(* ===================================================================== *)
(** ** More on the forwarding query *)
(* ===================================================================== *)

Lemma Resolve_valid_origin fuel path w q w' :
  Resolve fuel path w = Returned (PrimAt q) w' ->
  path = AbsPath q \/
  exists a d m rel,
    stage w !! a = Some d /\ is_instance d = true /\
    master_path d = Some m /\ rel <> [] /\ q = rel ++ m.
Proof.
  revert path. induction fuel as [|k IH]; intros path E.
  all: destruct (stage_GetPrimAtPath (stage w) path) as [|q0] eqn:Hp.
  all: try (rewrite Resolve_unfold in E; unfold hop in E; rewrite Hp in E;
            injection E as -> _; left;
            by apply stage_GetPrimAtPath_valid in Hp as [-> _]).
  all: destruct (Resolve_valid_forward _ _ _ _ _ Hp E)
    as (-> & n & a & rel & m & da & fwd' & -> & Hrel & _ & Hda & Hi & Hm & _
        & _ & Hfuel & Hrec).
  - done.
  - injection Hfuel as <-. right.
    destruct (IH _ Hrec) as [[= <-]|(a' & d' & m' & rel' & H)].
    + by exists (n :: a), da, m, rel.
    + by exists a', d', m', rel'.
Qed.

(** X11.  What the query can return.  A valid prim returned by the query
    is a prim of the stage, and returning it posted nothing; it is either
    the prim at the requested path itself or a prim strictly below the
    prototype of some instance prim of the stage. *)
Theorem Resolve_result_origin :
  forall fuel path w q w',
    UsdUtilsGetPrimAtPathWithForwarding fuel path w = Returned (PrimAt q) w' ->
    w' = w /\
    GetPrimAtPath (AbsPath q) w = Returned (PrimAt q) w /\
    (path = AbsPath q \/
     exists a d m rel,
       stage w !! a = Some d /\ is_instance d = true /\
       master_path d = Some m /\ rel <> [] /\ q = rel ++ m).
Proof.
  intros fuel path w q w' E. split_and!.
  - by eapply Resolve_valid_world.
  - unfold GetPrimAtPath. by rewrite (Resolve_valid_exists _ _ _ _ _ E).
  - by eapply Resolve_valid_origin.
Qed.

Lemma Resolve_result_origin_witness :
  world_nested = world_nested /\
  GetPrimAtPath (AbsPath ["y"; "Q"; "__Prototypes"]) world_nested
    = Returned (PrimAt ["y"; "Q"; "__Prototypes"]) world_nested /\
  (path_of ["A"; "B"; "y"] = AbsPath ["y"; "Q"; "__Prototypes"] \/
   exists a d m rel,
     stage world_nested !! a = Some d /\ is_instance d = true /\
     master_path d = Some m /\ rel <> [] /\
     ["y"; "Q"; "__Prototypes"] = rel ++ m).
Proof.
  apply (Resolve_result_origin 2 (path_of ["A"; "B"; "y"]) world_nested
           ["y"; "Q"; "__Prototypes"] world_nested).
  vm_compute. reflexivity.
Defined.

Lemma hop_shallow st path :
  IsPrimPath (GetParentPath path) = false ->
  hop st path = match stage_GetPrimAtPath st path with
                | PrimAt q => HopFound q
                | InvalidPrim => HopMiss
                end.
Proof.
  intros Hsh. unfold hop.
  destruct (stage_GetPrimAtPath st path); [|done].
  destruct path as [|[|n [|n' a]]]; simpl in *; try done.
  by case_decide.
Qed.

(** X12.  Paths without a prim-path parent are never forwarded.  For the
    empty path, the root path and every path directly below the root, the
    query and the mutator both return what [GetPrimAtPath] returns and
    leave the world untouched: an instance can only stand in for paths at
    least two levels deep. *)
Theorem shallow_paths_not_forwarded :
  forall fwd fuel path w,
    IsPrimPath (GetParentPath path) = false ->
    UsdUtilsGetPrimAtPathWithForwarding fuel path w = GetPrimAtPath path w /\
    UsdUtilsUninstancePrimAtPath fwd fuel path w = GetPrimAtPath path w.
Proof.
  intros fwd fuel path w Hsh.
  assert (forall k, Resolve k path w = GetPrimAtPath path w) as Hr.
  { intros k. rewrite Resolve_unfold, (hop_shallow _ _ Hsh).
    unfold GetPrimAtPath. by destruct (stage_GetPrimAtPath (stage w) path). }
  split; [apply Hr|].
  rewrite Uninstance_unfold, Hr. unfold GetPrimAtPath.
  by destruct (stage_GetPrimAtPath (stage w) path).
Qed.

Lemma shallow_paths_not_forwarded_witness :
  Resolve 3 (path_of ["B"]) world_nested
    = GetPrimAtPath (path_of ["B"]) world_nested /\
  Uninstance 3 3 (path_of ["B"]) world_nested
    = GetPrimAtPath (path_of ["B"]) world_nested.
Proof.
  apply (shallow_paths_not_forwarded 3 3 (path_of ["B"]) world_nested).
  reflexivity.
Defined.

(* ===================================================================== *)
(** ** More on the uninstancing mutator *)
(* ===================================================================== *)

Lemma Uninstance_frame fwd fuel rel a0 w :
  rel <> [] -> is_Some (stage w !! a0) ->
  match Uninstance fwd fuel (AbsPath (rel ++ a0)) w with
  | Returned _ w' | FatalError w' =>
      (forall q, ~ a0 `suffix_of` q -> stage w' !! q = stage w !! q) /\
      (forall q, is_Some (stage w !! q) -> is_Some (stage w' !! q))
  | _ => True
  end.
Proof.
  intros Hrel. revert w.
  induction fuel as [|k IH]; intros w Ha0; rewrite Uninstance_unfold.
  all: destruct (stage_GetPrimAtPath (stage w) (AbsPath (rel ++ a0))) eqn:Hp;
    [|done].
  all: pose proof (Resolve_frame fwd (AbsPath (rel ++ a0)) w) as Hf.
  all: destruct (Resolve fwd _ w) as [[|q1] w1|w1| |] eqn:E; simpl in Hf;
    try done.
  all: try (destruct Hf as [->|(_ & _ & ->)]; done).
  all: try (destruct Hf as [_ ->]; done).
  all: destruct (Resolve_valid_forward _ _ _ _ _ Hp E)
    as (-> & n & a & rel2 & m & da & fwd' & [= Epath] & _ & Ha & Hda & Hi
        & _ & _ & Hgap & _).
  all: rewrite Ha; cbn [IsPrimPath]; unfold stage_IsInstance;
    rewrite Hda, Hi.
  { done. }
  destruct (nearest_at_or_below (stage w) rel rel2 a0 (n :: a))
    as (k' & Ek & _); [done..|].
  specialize (IH (after_SetInstanceable (PrimAt (n :: a)) false w)).
  cbn [after_SetInstanceable stage] in IH.
  specialize (IH (SetInstanceable_false_keeps _ _ _ Ha0)).
  destruct (Uninstance fwd k _ _) as [r w'|w'| |]; try done.
  all: destruct IH as [Hout Hkeep]; split.
  all: try (intros q Hq; rewrite (Hout q Hq);
            apply SetInstanceable_false_outside;
            [intros ->; apply Hq; rewrite Ek; by exists k'
            |intros n' rel' ->; apply Hq; rewrite Ek;
             exists ((n' :: rel') ++ k'); by rewrite <- app_assoc]).
  all: intros q Hq; apply Hkeep; by apply SetInstanceable_false_keeps.
Qed.

(** X13.  Frame of the mutator.  Whatever it returns, a run on a path
    changes no prim outside the subtree of an existing strict ancestor of
    that path (prototypes and everything else on the stage are as
    before), and it never removes a prim. *)
Theorem Uninstance_changes_only_below :
  forall fwd fuel a0 rel w,
    rel <> [] -> is_Some (stage w !! a0) ->
    match UsdUtilsUninstancePrimAtPath fwd fuel
            (AppendPath (AbsPath a0) rel) w with
    | Returned _ w' | FatalError w' =>
        (forall q, ~ a0 `suffix_of` q -> stage w' !! q = stage w !! q) /\
        (forall q, is_Some (stage w !! q) -> is_Some (stage w' !! q))
    | _ => True
    end.
Proof. intros fwd fuel a0 rel w. apply Uninstance_frame. Qed.

Lemma Uninstance_changes_only_below_witness :
  (forall q, ~ ["A"] `suffix_of` q ->
             stage world_nested_uninstanced !! q = stage world_nested !! q) /\
  (forall q, is_Some (stage world_nested !! q) ->
             is_Some (stage world_nested_uninstanced !! q)).
Proof.
  assert (["y"; "B"] <> []) as H1 by done.
  assert (is_Some (stage world_nested !! ["A"])) as H2
    by (vm_compute; eauto).
  pose proof (Uninstance_changes_only_below 2 2 ["A"] ["y"; "B"]
                world_nested H1 H2) as H.
  change (UsdUtilsUninstancePrimAtPath 2 2
            (AppendPath (AbsPath ["A"]) ["y"; "B"]) world_nested)
    with (Uninstance 2 2 (path_of ["A"; "B"; "y"]) world_nested) in H.
  unfold world_nested_uninstanced, final_world.
  destruct (Uninstance 2 2 (path_of ["A"; "B"; "y"]) world_nested)
    as [r w'|w'| |] eqn:E; try exact H.
  - vm_compute in E. discriminate E.
  - vm_compute in E. discriminate E.
Defined.

Lemma nested_inward_snoc calls x b :
  nested_inward calls ->
  (forall a' b', (a', b') ∈ calls -> strictly_below x a') ->
  nested_inward (calls ++ [(x, b)]).
Proof.
  induction calls as [|[a ba] earlier IH]; simpl.
  - intros _ _. split; [|done]. by intros ?? ?%elem_of_nil.
  - intros [Hbelow Hnest] Hall. split.
    + intros a' b' [?|Hs%list_elem_of_singleton]%elem_of_app.
      * by eapply Hbelow.
      * injection Hs as -> ->. apply (Hall a ba). by apply elem_of_cons; left.
    + apply IH; [done|]. intros a' b' ?. apply (Hall a' b').
      by apply elem_of_cons; right.
Qed.

Lemma strictly_below_length (a q : names) :
  strictly_below a q -> length a < length q.
Proof. intros (n & rel & ->). rewrite length_app. simpl. lia. Qed.

Lemma nested_inward_length calls :
  nested_inward calls ->
  (forall a b, (a, b) ∈ calls -> a <> []) ->
  match calls with
  | [] => True
  | (a, _) :: _ => length calls <= length a
  end.
Proof.
  induction calls as [|[a ba] earlier IH]; simpl; [done|].
  intros [Hbelow Hnest] Hne.
  destruct earlier as [|[a2 b2] earlier].
  - simpl. destruct a; [|simpl; lia].
    by destruct (Hne [] ba); [apply elem_of_cons; left|].
  - assert (length ((a2, b2) :: earlier) <= length a2) as Hlen.
    { apply IH; [done|]. intros a' b' ?. apply (Hne a' b').
      by apply elem_of_cons; right. }
    pose proof (strictly_below_length a2 a
                  (Hbelow a2 b2 ltac:(by apply elem_of_cons; left))).
    simpl in *. lia.
Qed.

Lemma Uninstance_clears fwd fuel comps w :
  match Uninstance fwd fuel (AbsPath comps) w with
  | Returned _ w' | FatalError w' =>
      exists cleared,
        set_instanceable_calls w' = cleared ++ set_instanceable_calls w /\
        nested_inward cleared /\
        forall a b, (a, b) ∈ cleared ->
          b = false /\ a <> [] /\ strictly_below a comps /\
          forall a0 d0, strictly_below a0 comps ->
            stage w !! a0 = Some d0 -> is_instance d0 = false ->
            strictly_below a0 a
  | _ => True
  end.
Proof.
  revert w. induction fuel as [|k IH]; intros w; rewrite Uninstance_unfold.
  all: destruct (stage_GetPrimAtPath (stage w) (AbsPath comps)) eqn:Hp;
    [|exists []; split_and!; [done..|by intros ?? ?%elem_of_nil]].
  all: pose proof (Resolve_frame fwd (AbsPath comps) w) as Hf.
  all: destruct (Resolve fwd _ w) as [[|q1] w1|w1| |] eqn:E; simpl in Hf;
    try done.
  all: try (exists []; destruct Hf as [->|(_ & _ & ->)];
            (split_and!; [done..|by intros ?? ?%elem_of_nil])).
  all: try (exists []; destruct Hf as [_ ->];
            (split_and!; [done..|by intros ?? ?%elem_of_nil])).
  all: destruct (Resolve_valid_forward _ _ _ _ _ Hp E)
    as (-> & n & a & rel & m & da & fwd' & [= ->] & Hrel & Ha & Hda & Hi
        & _ & _ & Hgap & _).
  all: rewrite Ha; cbn [IsPrimPath]; unfold stage_IsInstance;
    rewrite Hda, Hi.
  { done. }
  assert (strictly_below (n :: a) (rel ++ n :: a)) as Hbelow.
  { destruct rel as [|x rel]; [done|]. by exists x, rel. }
  assert (forall a0 d0, strictly_below a0 (rel ++ n :: a) ->
            stage w !! a0 = Some d0 -> is_instance d0 = false ->
            strictly_below a0 (n :: a)) as Hdeeper.
  { intros a0 d0 (x & rel0 & E0) Hd0 Hi0.
    destruct (nearest_at_or_below (stage w) (x :: rel0) rel a0 (n :: a))
      as (k' & Ek & _); [done|done|by rewrite Hd0|done|].
    destruct k' as [|y k']; [|by exists y, k'].
    simpl in Ek. rewrite <- Ek in Hd0. congruence. }
  specialize (IH (after_SetInstanceable (PrimAt (n :: a)) false w)).
  destruct (Uninstance fwd k _ _) as [r w'|w'| |]; try done.
  all: destruct IH as (cleared & Hcalls & Hnest & Hall).
  all: exists (cleared ++ [(n :: a, false)]).
  all: split; [rewrite Hcalls; cbn [after_SetInstanceable
                 set_instanceable_calls]; by rewrite <- app_assoc|].
  all: split.
  all: try (apply nested_inward_snoc; [done|];
            intros a' b' Hin; destruct (Hall a' b' Hin) as (_ & _ & _ & Hd);
            apply (Hd (n :: a) plain_prim); [done| |done];
            cbn [after_SetInstanceable stage];
            apply SetInstanceable_false_self; by rewrite Hda).
  all: intros a' b' [Hin|Hin%list_elem_of_singleton]%elem_of_app.
  all: try (injection Hin as -> ->; split_and!; try done;
            intros a0 d0 ? ? ?; by eapply Hdeeper).
  all: destruct (Hall a' b' Hin) as (? & ? & ? & Hd); split_and!; try done.
  all: intros a0 d0 Hb0 Hd0 Hi0; apply (Hd a0 d0); [done| |done].
  all: cbn [after_SetInstanceable stage].
  all: rewrite SetInstanceable_false_outside; [done|..].
  all: pose proof (strictly_below_length _ _ (Hdeeper a0 d0 Hb0 Hd0 Hi0)).
  all: try (intros ->; simpl in *; lia).
  all: intros n' rel' ->; rewrite length_app in *; simpl in *; lia.
Qed.

(** X14.  The mutator works its way inward.  Whatever it returns, the
    [SetInstanceable] calls of a run all pass [false], each targets a
    strict ancestor of the path that lies strictly below the targets of
    all earlier calls, so no prim is cleared twice and a run on a path of
    depth [n] clears at most [n - 1] flags, with no assumption on the
    stage. *)
Theorem Uninstance_clears_inward :
  forall fwd fuel comps w,
    match UsdUtilsUninstancePrimAtPath fwd fuel (AbsPath comps) w with
    | Returned _ w' | FatalError w' =>
        exists cleared,
          set_instanceable_calls w' = cleared ++ set_instanceable_calls w /\
          nested_inward cleared /\
          (forall a b, (a, b) ∈ cleared ->
                       b = false /\ strictly_below a comps) /\
          length cleared <= path_depth (AbsPath comps) - 1
    | _ => True
    end.
Proof.
  intros fwd fuel comps w. pose proof (Uninstance_clears fwd fuel comps w) as H.
  destruct (Uninstance fwd fuel (AbsPath comps) w) as [r w'|w'| |]; try done.
  all: destruct H as (cleared & Hcalls & Hnest & Hall).
  all: exists cleared; split_and!; try done.
  all: try (intros a b Hin; by destruct (Hall a b Hin) as (? & _ & ? & _)).
  all: pose proof (nested_inward_length cleared Hnest
         ltac:(intros a b Hin; by destruct (Hall a b Hin) as (_ & ? & _)))
    as Hlen.
  all: destruct cleared as [|[a b] earlier]; [simpl; lia|].
  all: destruct (Hall a b ltac:(by apply elem_of_cons; left))
    as (_ & _ & Hb%strictly_below_length & _).
  all: simpl in *; lia.
Qed.

(** X15.  Diagnostics of the mutator.  A run never leaves the contract
    of [ReplacePrefix]; it posts at most one diagnostic, the failed verify
    of [master] raised by its forwarding query, and then ends at once with
    the invalid sentinel, or with an abort when failed verifies are
    fatal.  A run that returns a valid prim has posted nothing. *)
Theorem Uninstance_diagnostics :
  forall fwd fuel path w,
    match UsdUtilsUninstancePrimAtPath fwd fuel path w with
    | Returned r w' =>
        fatal_verify w' = fatal_verify w /\
        (diagnostics w' = diagnostics w \/
         (r = InvalidPrim /\ fatal_verify w = false /\
          diagnostics w' = FailedVerify "master" :: diagnostics w))
    | FatalError w' =>
        fatal_verify w = true /\
        diagnostics w' = FailedVerify "master" :: diagnostics w
    | Unspecified => False
    | OutOfFuel => True
    end.
Proof.
  intros fwd fuel path. induction fuel as [|k IH]; intros w.
  all: rewrite Uninstance_unfold.
  all: destruct (stage_GetPrimAtPath (stage w) path) eqn:Hp; [|by auto].
  all: pose proof (Resolve_frame fwd path w) as Hf.
  all: destruct (Resolve fwd path w) as [[|q] w1|w1| |] eqn:E;
    simpl in Hf; try done.
  all: try (destruct Hf as [->|(_ & ? & ->)]; simpl; by auto).
  all: try (destruct Hf as [? ->]; simpl; by auto).
  all: destruct (Resolve_valid_forward _ _ _ _ _ Hp E)
    as (-> & n & a & rel & m & da & fwd' & -> & _ & Ha & Hda & Hi & _).
  all: rewrite Ha; cbn [IsPrimPath]; unfold stage_IsInstance;
    rewrite Hda, Hi.
  { done. }
  specialize (IH (after_SetInstanceable (PrimAt (n :: a)) false w)).
  by destruct (Uninstance fwd k _ _).
Qed.
